(** * run_cmaes.py: the CMA-ES optimization driver

    A shallow embedding of [cmaes_integration/run_cmaes.py].  The script
    writes the header of [output.csv], builds a [cmaes.CMA] optimizer and runs
    a fixed number of ask / evaluate / tell generations, appending one row
    to [output.csv] per generation.

    The optimizer ([cmaes.CMA]) and the simulator ([run_simulation]) are
    collaborators the script only calls: they are interfaces here, and
    the driver is a program in a state-and-exception monad over the
    observable world (the file, the console, the simulator's own state and
    the sequence of collaborator calls). *)

From Stdlib Require Import ZArith String Ascii Lia Bool FinFun Permutation List.
From Stdlib Require Import DecimalString DecimalZ DecimalPos.
Import ListNotations.
Local Open Scope string_scope.
Local Open Scope list_scope.
Local Open Scope Z_scope.

(** ** Python built-ins used by the script *)

(** [range(n)]: the integers [0, 1, ..., n-1]; empty when [n <= 0]. *)
Definition range (n : Z) : list Z :=
  map Z.of_nat (seq 0 (Z.to_nat n)).

(** [str(i)] on an integer: its decimal representation, with a leading
    minus sign for a negative one. *)
Definition str (i : Z) : string :=
  NilZero.string_of_int (Z.to_int i).

(** [l * n] on a list: [n] copies of [l], one after the other. *)
Fixpoint list_mul {A : Type} (l : list A) (n : nat) : list A :=
  match n with
  | O => []
  | S n' => l ++ list_mul l n'
  end.

(** Whether a character occurs in a string. *)
Fixpoint occurs (c : ascii) (s : string) : bool :=
  match s with
  | EmptyString => false
  | String a s' => Ascii.eqb a c || occurs c s'
  end.

(** ** The collaborators *)

(** [cmaes.CMA], over candidates with components in [R] and fitness values
    in [F].  An optimizer object is a value of [opt]; a method that
    mutates the object returns the new one.  [tell] is handed the caller's
    list object and may change it in place ([cmaes] sorts it by fitness):
    it returns, with the optimizer, the list as it leaves it.  [None] is a
    raised exception.  [sigma] is the integer the command line parses. *)
Class Optimizer (R F : Type) := {
  opt : Type;
  CMA : list R -> Z -> option opt;
  population_size : opt -> nat;
  ask : opt -> option (list R * opt);
  tell : list (list R * F) -> opt -> option (opt * list (list R * F))
}.

(** The module [run_simulation]: its constants and [run], which reads and
    changes the simulator's own state [sim] (its windows, its video files)
    and returns a fitness, or raises ([None]).  It is taken to leave the
    candidate it is given as it is. *)
Class Simulator (R F : Type) := {
  sim : Type;
  NUM_ACTUATORS : nat;
  NUM_ITERS : Z;
  AVG_FREQ : R;
  AVG_AMP : R;
  AVG_PHASE_OFFSET : R;
  run : Z -> list R -> string -> string -> sim -> option (F * sim)
}.

(** ** A small concrete optimizer and simulator

    Candidates and fitness values are integers.  The optimizer's state is
    its mean and the number of candidates drawn so far; it has a population
    of three, refuses a non-positive sigma as [cmaes.CMA] does, draws
    the mean shifted by the draw count, and when told a batch sorts the
    list by fitness, lowest first, as [cmaes.CMA] does.  The simulator
    scores a candidate by the squared distance of the sum of its components
    to 34, and counts its runs. *)
Definition toy_ask (mean : list Z) (n : nat) : list Z :=
  map (fun c => c + Z.of_nat n) mean.

Definition toy_score (x : list Z) : Z :=
  (fold_right Z.add 0 x - 34) * (fold_right Z.add 0 x - 34).

Fixpoint toy_insert (s : list Z * Z) (l : list (list Z * Z))
    : list (list Z * Z) :=
  match l with
  | [] => [s]
  | t :: l' => if snd s <=? snd t then s :: l else t :: toy_insert s l'
  end.

Definition toy_sort (l : list (list Z * Z)) : list (list Z * Z) :=
  fold_right toy_insert [] l.

#[local] Instance toy_optimizer : Optimizer Z Z := {|
  opt := list Z * nat;
  CMA := fun mean sigma =>
    if sigma <=? 0 then None else Some (mean, O);
  population_size := fun _ => 3%nat;
  ask := fun o => Some (toy_ask (fst o) (snd o), (fst o, S (snd o)));
  tell := fun l o => Some ((fst o, O), toy_sort l)
|}.

#[local] Instance toy_simulator : Simulator Z Z := {|
  sim := nat;
  NUM_ACTUATORS := 2;
  NUM_ITERS := 200;
  AVG_FREQ := 3;
  AVG_AMP := 5;
  AVG_PHASE_OFFSET := 7;
  run := fun _ x _ _ s => Some (toy_score x, S s)
|}.

(** The same optimizer, but for [tell], which leaves the list in the
    order it was collected. *)
Definition toy_plain_optimizer : Optimizer Z Z := {|
  opt := list Z * nat;
  CMA := fun mean sigma =>
    if sigma <=? 0 then None else Some (mean, O);
  population_size := fun _ => 3%nat;
  ask := fun o => Some (toy_ask (fst o) (snd o), (fst o, S (snd o)));
  tell := fun l o => Some ((fst o, O), l)
|}.

(** An optimizer whose population is empty: it is built from any sigma,
    has nothing to draw, and accepts the batch it is told. *)
Definition toy_empty_optimizer : Optimizer Z Z := {|
  opt := unit;
  CMA := fun _ _ => Some tt;
  population_size := fun _ => O;
  ask := fun _ => None;
  tell := fun l o => Some (o, l)
|}.

(** [int(s)] restricted to plain decimal numerals with an optional sign. *)
Definition toy_int (s : string) : option Z :=
  option_map Z.of_int (NilZero.int_of_string s).

(** Exceptions: one raised by the optimizer, one raised by the simulator,
    and the [IndexError] of [solutions[0]] on an empty list. *)
Inductive exn : Type :=
| OptimizerError
| SimulatorError
| IndexError.

Inductive res (A : Type) : Type :=
| Ok (a : A)
| Raise (e : exn).
#[global] Arguments Ok {A} a.
#[global] Arguments Raise {A} e.

(** ** The driver *)

Section Driver.

Context {R F : Type}.
Context {cmaes : Optimizer R F} {run_simulation : Simulator R F}.

(** [int(s)], which [argparse] applies to the tokens of the options
    declared with [type=int]; [None] is a [ValueError]. *)
Variable py_int : string -> option Z.

(** A candidate is the list of its components; a solution pairs a candidate
    with its fitness. *)
Definition candidate : Type := list R.
Definition solution : Type := (candidate * F)%type.

(** A cell of [output.csv], and a row of it. *)
Inductive cell : Type :=
| CStr (s : string)
| CInt (i : Z)
| CFit (f : F)
| CNum (r : R).

Definition row : Type := list cell.

(** A line of the console: [print(list of fitness values)] and
    [print("Generation", g, "Best Fitness:", f)]. *)
Inductive line : Type :=
| PFitnesses (fs : list F)
| PBest (generation : Z) (fitness : F).

(** The calls to the collaborators that returned, with their arguments and
    results; for [tell], the list it was handed and the list as it left
    it. *)
Inductive event : Type :=
| EvCMA (mean : list R) (sigma : Z)
| EvPopulationSize (n : nat)
| EvAsk (x : candidate)
| EvRun (iters : Z) (x : candidate) (mode label : string) (fitness : F)
| EvTell (solutions back : list solution).

(** What a run can observe and change: the rows of [output.csv], the lines
    printed, the simulator's state, and the calls made so far.  Opening and
    writing the file are taken to succeed. *)
Record World : Type := mkWorld {
  output_csv : list row;
  stdout : list line;
  sim_state : sim;
  trace : list event
}.

(** A computation returns or raises, and leaves a world either way. *)
Definition M (A : Type) : Type := World -> res A * World.

Definition ret {A : Type} (a : A) : M A := fun w => (Ok a, w).

Definition bind {A B : Type} (m : M A) (k : A -> M B) : M B :=
  fun w =>
    match m w with
    | (Ok a, w') => k a w'
    | (Raise e, w') => (Raise e, w')
    end.

Definition raise {A : Type} (e : exn) : M A := fun w => (Raise e, w).

Notation "x <- m ;; k" := (bind m (fun x => k))
  (at level 61, m at next level, right associativity).
Notation "m ;;; k" := (bind m (fun _ => k))
  (at level 61, right associativity).

Definition log_event (e : event) : M unit :=
  fun w => (Ok tt, mkWorld (output_csv w) (stdout w) (sim_state w) (trace w ++ [e])).

(** [open("output.csv", "w")], one [writerow], close: the file holds that
    row alone, whatever it held. *)
Definition write_csv (r : row) : M unit :=
  fun w => (Ok tt, mkWorld [r] (stdout w) (sim_state w) (trace w)).

(** [open("output.csv", "a")], one [writerow], close. *)
Definition append_csv (r : row) : M unit :=
  fun w => (Ok tt, mkWorld (output_csv w ++ [r]) (stdout w) (sim_state w) (trace w)).

Definition print (l : line) : M unit :=
  fun w => (Ok tt, mkWorld (output_csv w) (stdout w ++ [l]) (sim_state w) (trace w)).

(** [CMA(mean=..., sigma=...)]. *)
Definition new_CMA (mean : list R) (sigma : Z) : M opt :=
  match CMA mean sigma with
  | Some o => log_event (EvCMA mean sigma) ;;; ret o
  | None => raise OptimizerError
  end.

(** [optimizer.population_size]. *)
Definition get_population_size (optimizer : opt) : M nat :=
  log_event (EvPopulationSize (population_size optimizer)) ;;;
  ret (population_size optimizer).

(** [optimizer.ask()]. *)
Definition call_ask (optimizer : opt) : M (candidate * opt) :=
  match ask optimizer with
  | Some (x, optimizer') => log_event (EvAsk x) ;;; ret (x, optimizer')
  | None => raise OptimizerError
  end.

(** [optimizer.tell(solutions)]: the optimizer and the list [solutions]
    as the call leaves them. *)
Definition call_tell (solutions : list solution) (optimizer : opt)
    : M (opt * list solution) :=
  match tell solutions optimizer with
  | Some ol => log_event (EvTell solutions (snd ol)) ;;; ret ol
  | None => raise OptimizerError
  end.

(** [sim.run(iters, x, mode, label)]. *)
Definition call_run (iters : Z) (x : candidate) (mode label : string) : M F :=
  fun w =>
    match run iters x mode label (sim_state w) with
    | Some (fitness, s') =>
        (Ok fitness,
         mkWorld (output_csv w) (stdout w) s'
                 (trace w ++ [EvRun iters x mode label fitness]))
    | None => (Raise SimulatorError, w)
    end.

(** [solutions[0]]. *)
Definition item0 (solutions : list solution) : M solution :=
  match solutions with
  | s :: _ => ret s
  | [] => raise IndexError
  end.

(** The header: two fixed columns, then three per actuator. *)
Definition csv_header : row :=
  fold_left
    (fun csv_header i =>
       csv_header ++ [CStr ("frequency" ++ str i);
                      CStr ("amplitude" ++ str i);
                      CStr ("phase_offset" ++ str i)])
    (range (Z.of_nat NUM_ACTUATORS))
    [CStr "generation"; CStr "best_fitness"].

(** The mean the optimizer starts from. *)
Definition initial_mean : list R :=
  list_mul [AVG_FREQ; AVG_AMP; AVG_PHASE_OFFSET] NUM_ACTUATORS.

(** The label of a simulator run. *)
Definition run_label (generation indv_num : Z) : string :=
  str generation ++ "_" ++ str indv_num.

(** The inner loop, over the slots left: draw a candidate, evaluate it,
    append the pair to [solutions]. *)
Fixpoint evaluate_population (generation : Z) (mode : string)
    (slots : list Z) (optimizer : opt) (solutions : list solution)
    : M (opt * list solution) :=
  match slots with
  | [] => ret (optimizer, solutions)
  | indv_num :: slots' =>
      xo <- call_ask optimizer ;;
      fitness <- call_run NUM_ITERS (fst xo) mode (run_label generation indv_num) ;;
      evaluate_population generation mode slots' (snd xo)
        (solutions ++ [(fst xo, fitness)])
  end.

(** The row of a generation: its index, a fitness, a candidate's
    components. *)
Definition new_row (generation : Z) (fitness : F) (x : candidate) : row :=
  [CInt generation; CFit fitness] ++ map CNum x.

(** The body of the outer loop.  [solutions] is one list object: what
    is printed and logged after [optimizer.tell(solutions)] is read from
    the list as that call left it. *)
Definition run_generation (generation : Z) (mode : string) (optimizer : opt)
    : M opt :=
  n <- get_population_size optimizer ;;
  os <- evaluate_population generation mode (range (Z.of_nat n)) optimizer [] ;;
  ol <- call_tell (snd os) (fst os) ;;
  let solutions := snd ol in
  print (PFitnesses (map snd solutions)) ;;;
  s <- item0 solutions ;;
  print (PBest generation (snd s)) ;;;
  s1 <- item0 solutions ;;
  s2 <- item0 solutions ;;
  append_csv (new_row generation (snd s1) (fst s2)) ;;;
  ret (fst ol).

(** The outer loop, over the generations left. *)
Fixpoint run_generations (mode : string) (generations : list Z)
    (optimizer : opt) : M unit :=
  match generations with
  | [] => ret tt
  | generation :: generations' =>
      optimizer' <- run_generation generation mode optimizer ;;
      run_generations mode generations' optimizer'
  end.

Definition run_cma_es (mode : string) (gens : Z) (sigma_val : Z) : M unit :=
  write_csv csv_header ;;;
  optimizer <- new_CMA initial_mean sigma_val ;;
  run_generations mode (range gens) optimizer.

(** *** The command line *)

(** What [parse_args] returns. *)
Record Namespace : Type := mkNamespace {
  ns_mode : string;
  ns_gens : Z;
  ns_sigma : Z
}.

(** The defaults of the three options. *)
Definition default_args : Namespace := mkNamespace "h" 100 2.

(** Whether a token is a minus sign followed by one or more digits: a
    negative number, which the parser reads as a value. *)
Definition is_digit (c : ascii) : bool :=
  ((48 <=? N_of_ascii c) && (N_of_ascii c <=? 57))%N.

Fixpoint all_digits (s : string) : bool :=
  match s with
  | EmptyString => true
  | String c s' => is_digit c && all_digits s'
  end.

Definition is_value (token : string) : bool :=
  match token with
  | String "-" EmptyString => false
  | String "-" digits => all_digits digits
  | _ => true
  end.

(** [parser.parse_args] on the arguments after the script's name, for a
    command line made of the option strings written in full, each followed
    by its value as the next token.  A token that starts with a minus
    sign is a value only when it is a negative number.  [--mode] keeps
    its token; [--gens] and [--sigma] convert theirs with [int].  [None]
    is the parser leaving the program instead of returning. *)
Fixpoint parse_from (args : list string) (ns : Namespace) : option Namespace :=
  match args with
  | [] => Some ns
  | [_] => None
  | opt_string :: value :: args' =>
      if negb (is_value value) then None
      else if String.eqb opt_string "--mode" then
        parse_from args' (mkNamespace value (ns_gens ns) (ns_sigma ns))
      else if String.eqb opt_string "--gens" then
        match py_int value with
        | Some n => parse_from args' (mkNamespace (ns_mode ns) n (ns_sigma ns))
        | None => None
        end
      else if String.eqb opt_string "--sigma" then
        match py_int value with
        | Some n => parse_from args' (mkNamespace (ns_mode ns) (ns_gens ns) n)
        | None => None
        end
      else None
  end.

Definition parse_args (args : list string) : option Namespace :=
  parse_from args default_args.

(** The script run as a program: parse, then [run_cma_es]; [None] when the
    arguments are refused, in which case nothing else happens. *)
Definition main (args : list string) (w : World) : option (res unit * World) :=
  match parse_args args with
  | Some ns => Some (run_cma_es (ns_mode ns) (ns_gens ns) (ns_sigma ns) w)
  | None => None
  end.

(** *** What a run is expected to leave behind *)

(** The world a run starts in: whatever [output.csv] held, an empty
    console, the simulator's state, no call made yet. *)
Definition initial_world (old_csv : list row) (s : sim) : World :=
  mkWorld old_csv [] s [].

(** The calls of the inner loop for the slots paired with the solutions
    they produced: a draw, then the evaluation of what was drawn. *)
Definition draw_events (generation : Z) (mode : string)
    (slots : list (Z * solution)) : list event :=
  flat_map
    (fun js => [EvAsk (fst (snd js));
                EvRun NUM_ITERS (fst (snd js)) mode
                      (run_label generation (fst js)) (snd (snd js))])
    slots.

(** A call of [tell]: the list it was handed and the list as it left it. *)
Definition telling : Type := (list solution * list solution)%type.

(** The calls of one generation that collected the list [fst (snd gt)]:
    the population size is read, every slot is drawn and evaluated, the
    list is told and comes back as [snd (snd gt)]. *)
Definition generation_events (mode : string) (gt : Z * telling)
    : list event :=
  EvPopulationSize (length (fst (snd gt)))
    :: draw_events (fst gt) mode
         (combine (range (Z.of_nat (length (fst (snd gt))))) (fst (snd gt)))
    ++ [EvTell (fst (snd gt)) (snd (snd gt))].

(** A generation that ran in full: the list it collected, and the first
    pair and the other pairs of that list as [tell] left it. *)
Definition batch : Type := (list solution * (solution * list solution))%type.

Definition batch_first (b : batch) : solution := fst (snd b).

Definition batch_left (b : batch) : list solution :=
  fst (snd b) :: snd (snd b).

Definition batch_telling (b : batch) : telling := (fst b, batch_left b).

Definition batch_row (gb : Z * batch) : row :=
  new_row (fst gb) (snd (batch_first (snd gb))) (fst (batch_first (snd gb))).

Definition batch_lines (gb : Z * batch) : list line :=
  [PFitnesses (map snd (batch_left (snd gb)));
   PBest (fst gb) (snd (batch_first (snd gb)))].

(** A generation cut short: the population size was read, some slots were
    drawn and evaluated, and possibly one more candidate was drawn whose
    evaluation raised. *)
Definition cut_short (generation : Z) (mode : string) (slots : list Z)
    (t : list event) : Prop :=
  exists new dangling,
    (length new <= length slots)%nat /\
    t = draw_events generation mode (combine slots new) ++ dangling /\
    (dangling = [] \/ exists x, dangling = [EvAsk x]).

(** How the generation that raised [e] left the trace and the console:
    either a collaborator raised, in a generation cut short, or [tell]
    left the list empty, so that the empty list was printed before
    [solutions[0]] raised. *)
Definition stopped (mode : string) (g : Z) (e : exn)
    (t : list event) (out : list line) : Prop :=
  (e <> IndexError /\ out = [] /\
   exists p t', t = EvPopulationSize p :: t' /\
                cut_short g mode (range (Z.of_nat p)) t')
  \/
  (e = IndexError /\ out = [PFitnesses []] /\
   exists sols, t = generation_events mode (g, (sols, []))).

(** The lists handed to [tell], the lists as [tell] left them, the
    candidates drawn and the labels and modes passed to the simulator, in
    the order of the calls. *)
Definition told (t : list event) : list (list solution) :=
  flat_map (fun e => match e with EvTell s _ => [s] | _ => [] end) t.

Definition left_by_tell (t : list event) : list (list solution) :=
  flat_map (fun e => match e with EvTell _ l => [l] | _ => [] end) t.

Definition drawn (t : list event) : list candidate :=
  flat_map (fun e => match e with EvAsk x => [x] | _ => [] end) t.

Definition labels (t : list event) : list string :=
  flat_map (fun e => match e with EvRun _ _ _ l _ => [l] | _ => [] end) t.

Definition modes (t : list event) : list string :=
  flat_map (fun e => match e with EvRun _ _ m _ _ => [m] | _ => [] end) t.

(** A trace with the mode of every simulator call blanked. *)
Definition erase_mode (e : event) : event :=
  match e with
  | EvRun iters x _ label fitness => EvRun iters x "" label fitness
  | _ => e
  end.

(** The (generation, fitness) pairs of the "Best Fitness" lines printed. *)
Definition bests (out : list line) : list (Z * F) :=
  flat_map (fun l => match l with PBest g f => [(g, f)] | _ => [] end) out.

(** Every call to a collaborator returns: the optimizer is built from the
    initial mean and [sigma_val], and [ask], [tell] and [run] never raise. *)
Definition calls_return (sigma_val : Z) : Prop :=
  CMA initial_mean sigma_val <> None /\
  (forall o, ask o <> None) /\
  (forall sols o, tell sols o <> None) /\
  (forall iters x mode label st, run iters x mode label st <> None).

(** Modelled from the spec: the constructor of [cmaes.CMA], which is not
    part of the repository.  The spec has it that sigma "must be a positive
    real number for the optimizer to initialize successfully" and that
    "invalid sigma <= 0 causes optimizer initialization to fail". *)
Definition refuses_nonpositive_sigma : Prop :=
  forall (mean : list R) (sigma : Z), sigma <= 0 -> CMA mean sigma = None.

(** The population is never empty, as [cmaes.CMA] guarantees of the
    population size it computes. *)
Definition population_positive : Prop :=
  forall o : opt, (0 < population_size o)%nat.

(** [tell] changes the list it is handed by reordering it at most, as
    the in-place sort of [cmaes.CMA] does. *)
Definition tell_reorders : Prop :=
  forall sols o o' back,
    tell sols o = Some (o', back) -> Permutation sols back.

(** Two worlds that differ at most in the mode recorded with the
    simulator calls. *)
Definition same_but_mode (w1 w2 : World) : Prop :=
  output_csv w1 = output_csv w2 /\
  stdout w1 = stdout w2 /\
  sim_state w1 = sim_state w2 /\
  map erase_mode (trace w1) = map erase_mode (trace w2).

(** The slots a generation that collected [solutions] went through, and
    the labels of a generation that went through [slots]. *)
Definition slots_of (solutions : list solution) : list Z :=
  firstn (length solutions) (range (Z.of_nat (length solutions))).

Definition block_labels (gl : Z * list Z) : list string :=
  map (run_label (fst gl)) (snd gl).

(** The three column names the header loop appends for actuator [i]. *)
Definition header_columns (i : Z) : list cell :=
  [CStr ("frequency" ++ str i);
   CStr ("amplitude" ++ str i);
   CStr ("phase_offset" ++ str i)].

(** The lists of fitness values printed, the iteration budgets passed to
    the simulator, and the (candidate, fitness) pairs its runs produced,
    in the order of the calls. *)
Definition printed_lists (out : list line) : list (list F) :=
  flat_map (fun l => match l with PFitnesses fs => [fs] | _ => [] end) out.

Definition budgets (t : list event) : list Z :=
  flat_map (fun e => match e with EvRun i _ _ _ _ => [i] | _ => [] end) t.

Definition evaluated (t : list event) : list solution :=
  flat_map (fun e => match e with EvRun _ x _ _ f => [(x, f)] | _ => [] end) t.

(** The labels of the simulator runs of a generation that collected
    [solutions]: one per slot, in slot order. *)
Definition generation_labels (gs : Z * list solution) : list string :=
  map (run_label (fst gs)) (range (Z.of_nat (length (snd gs)))).

(** *** The trace against the collaborators *)

(** The collaborators at a point of a run: the optimizer object, once
    built, and the simulator's state. *)
Definition collaborators : Type := (option opt * sim)%type.

(** One recorded call, made for real: the collaborator, in the state the
    calls before left it in, applied to the recorded arguments, returns
    the recorded result and leaves the new state. *)
Inductive step : collaborators -> event -> collaborators -> Prop :=
| step_CMA (oo : option opt) (s : sim) mean sigma o :
    CMA mean sigma = Some o ->
    step (oo, s) (EvCMA mean sigma) (Some o, s)
| step_population_size (o : opt) (s : sim) :
    step (Some o, s) (EvPopulationSize (population_size o)) (Some o, s)
| step_ask (o : opt) (s : sim) x o' :
    ask o = Some (x, o') ->
    step (Some o, s) (EvAsk x) (Some o', s)
| step_run (oo : option opt) (s : sim) iters x mode label fitness s' :
    run iters x mode label s = Some (fitness, s') ->
    step (oo, s) (EvRun iters x mode label fitness) (oo, s')
| step_tell (o : opt) (s : sim) sols o' back :
    tell sols o = Some (o', back) ->
    step (Some o, s) (EvTell sols back) (Some o', s).

Inductive replays : collaborators -> list event -> collaborators -> Prop :=
| replays_nil c : replays c [] c
| replays_cons c e c1 t c2 :
    step c e c1 -> replays c1 t c2 -> replays c (e :: t) c2.

(** The trace of [w'] is what was done to the collaborators, no more and
    no less, from the simulator state [s] on: the recorded calls, made one
    after the other with the recorded arguments, return the recorded
    results and leave the simulator as it is in [w']. *)
Definition faithful (s : sim) (w' : World) : Prop :=
  exists oo : option opt, replays (None, s) (trace w') (oo, sim_state w').

(** *** The file and the console from what [tell] handed back *)

(** The data rows and the console lines that the lists left by [tell]
    give, generation after generation from [g] on, up to the first empty
    list. *)
Fixpoint rows_from (g : Z) (backs : list (list solution)) : list row :=
  match backs with
  | (s :: _) :: backs' => new_row g (snd s) (fst s) :: rows_from (g + 1) backs'
  | _ => []
  end.

Fixpoint lines_from (g : Z) (backs : list (list solution)) : list line :=
  match backs with
  | [] => []
  | [] :: _ => [PFitnesses []]
  | (s :: l) :: backs' =>
      PFitnesses (map snd (s :: l)) :: PBest g (snd s)
        :: lines_from (g + 1) backs'
  end.

(** ** Facts about the built-ins *)

Lemma range_nonpos (n : Z) : n <= 0 -> range n = [].
Proof.
  intros Hn. unfold range.
  replace (Z.to_nat n) with O by lia. reflexivity.
Qed.

Lemma range_length (n : Z) : length (range n) = Z.to_nat n.
Proof. unfold range. now rewrite length_map, length_seq. Qed.

Lemma range_of_nat_length (n : nat) : length (range (Z.of_nat n)) = n.
Proof. rewrite range_length. lia. Qed.

Lemma range_nth (n : Z) (k : nat) :
  (k < Z.to_nat n)%nat -> nth_error (range n) k = Some (Z.of_nat k).
Proof.
  intros Hk. unfold range.
  rewrite nth_error_map, nth_error_seq.
  destruct (Nat.ltb_spec k (Z.to_nat n)); [reflexivity | lia].
Qed.

Lemma range_NoDup (n : Z) : NoDup (range n).
Proof.
  unfold range. apply Injective_map_NoDup.
  - intros a b. apply Nat2Z.inj.
  - apply seq_NoDup.
Qed.

Lemma list_mul_length {A : Type} (l : list A) (n : nat) :
  length (list_mul l n) = (n * length l)%nat.
Proof.
  induction n as [|n IH]; simpl; [reflexivity|].
  rewrite length_app, IH. reflexivity.
Qed.

Lemma list_mul_nth {A : Type} (l : list A) (n k j : nat) :
  (k < n)%nat -> (j < length l)%nat ->
  nth_error (list_mul l n) (k * length l + j) = nth_error l j.
Proof.
  revert k. induction n as [|n IH]; intros k Hk Hj; [lia|].
  simpl. destruct k as [|k].
  - simpl. now rewrite nth_error_app1.
  - rewrite nth_error_app2 by (simpl; lia).
    replace (S k * length l + j - length l)%nat with (k * length l + j)%nat
      by (simpl; lia).
    apply IH; lia.
Qed.

(** [str] never produces an underscore, and is injective. *)
Lemma uint_no_underscore (d : Decimal.uint) :
  occurs "_" (NilEmpty.string_of_uint d) = false.
Proof. induction d; simpl; auto. Qed.

Lemma str_no_underscore (i : Z) : occurs "_" (str i) = false.
Proof.
  unfold str. destruct i as [|p|p]; simpl; try reflexivity.
  - unfold NilZero.string_of_uint.
    destruct (Pos.to_uint p) eqn:E; try reflexivity;
      rewrite <- E; apply uint_no_underscore.
  - unfold NilZero.string_of_uint.
    destruct (Pos.to_uint p) eqn:E; try reflexivity;
      rewrite <- E; apply uint_no_underscore.
Qed.

Lemma str_inj (i j : Z) : str i = str j -> i = j.
Proof.
  unfold str. intros H.
  assert (Hnn : forall z, Z.to_int z <> Decimal.Pos Decimal.Nil
                          /\ Z.to_int z <> Decimal.Neg Decimal.Nil).
  { intros [|p|p]; simpl; split; try discriminate;
      intros [= E]; now apply (Unsigned.to_uint_nonnil p). }
  apply DecimalZ.to_int_inj.
  assert (E : Some (Z.to_int i) = Some (Z.to_int j)).
  { rewrite <- (NilZero.isi (Z.to_int i)) by apply Hnn.
    rewrite <- (NilZero.isi (Z.to_int j)) by apply Hnn.
    now rewrite H. }
  now injection E.
Qed.

(** Two strings without underscore, each followed by an underscore and a
    rest, agree only when both parts agree. *)
Lemma split_at_underscore (s1 s2 t1 t2 : string) :
  occurs "_" s1 = false -> occurs "_" s2 = false ->
  (s1 ++ "_" ++ t1)%string = (s2 ++ "_" ++ t2)%string ->
  s1 = s2 /\ t1 = t2.
Proof.
  revert s2. induction s1 as [|a s1 IH]; intros [|b s2] H1 H2 E; simpl in *.
  - injection E as E. now split.
  - injection E as Eb _. subst b. simpl in H2. discriminate.
  - injection E as Ea _. subst a. simpl in H1. discriminate.
  - injection E as Eab E. subst b.
    apply orb_false_iff in H1 as [_ H1]. apply orb_false_iff in H2 as [_ H2].
    destruct (IH s2 H1 H2 E) as [-> ->]. now split.
Qed.

Lemma run_label_inj (g i g' i' : Z) :
  run_label g i = run_label g' i' -> g = g' /\ i = i'.
Proof.
  unfold run_label. intros E.
  apply split_at_underscore in E; try apply str_no_underscore.
  destruct E as [Eg Ei]. split; now apply str_inj.
Qed.

(** ** The loops, one step at a time *)

Lemma evaluate_population_cons (g : Z) (mode : string) (i : Z)
    (slots : list Z) (o : opt) (sols : list solution) (w : World) :
  evaluate_population g mode (i :: slots) o sols w =
  match ask o with
  | None => (Raise OptimizerError, w)
  | Some (x, o') =>
      match run NUM_ITERS x mode (run_label g i) (sim_state w) with
      | None =>
          (Raise SimulatorError,
           mkWorld (output_csv w) (stdout w) (sim_state w)
                   (trace w ++ [EvAsk x]))
      | Some (f, s') =>
          evaluate_population g mode slots o' (sols ++ [(x, f)])
            (mkWorld (output_csv w) (stdout w) s'
                     ((trace w ++ [EvAsk x])
                      ++ [EvRun NUM_ITERS x mode (run_label g i) f]))
      end
  end.
Proof.
  simpl. unfold bind at 1. unfold call_ask.
  destruct (ask o) as [[x o']|]; [|reflexivity].
  unfold bind, log_event, ret, call_run. simpl.
  now destruct (run NUM_ITERS x mode (run_label g i) (sim_state w))
    as [[f s']|].
Qed.

Lemma run_generation_eq (g : Z) (mode : string) (o : opt) (w : World) :
  run_generation g mode o w =
  match
    evaluate_population g mode (range (Z.of_nat (population_size o))) o []
      (mkWorld (output_csv w) (stdout w) (sim_state w)
               (trace w ++ [EvPopulationSize (population_size o)]))
  with
  | (Raise e, w2) => (Raise e, w2)
  | (Ok (o1, sols), w2) =>
      match tell sols o1 with
      | None => (Raise OptimizerError, w2)
      | Some (o2, back) =>
          match back with
          | [] =>
              (Raise IndexError,
               mkWorld (output_csv w2) (stdout w2 ++ [PFitnesses []])
                       (sim_state w2) (trace w2 ++ [EvTell sols []]))
          | s0 :: _ =>
              (Ok o2,
               mkWorld (output_csv w2 ++ [new_row g (snd s0) (fst s0)])
                       ((stdout w2 ++ [PFitnesses (map snd back)])
                        ++ [PBest g (snd s0)])
                       (sim_state w2) (trace w2 ++ [EvTell sols back]))
          end
      end
  end.
Proof.
  unfold run_generation, get_population_size.
  unfold bind at 1. unfold bind at 1.
  unfold log_event at 1. unfold ret at 1. unfold bind at 1.
  destruct (evaluate_population g mode
              (range (Z.of_nat (population_size o))) o [] _)
    as [[[o1 sols]|e] w2]; [|reflexivity].
  cbn [fst snd]. unfold bind at 1. unfold call_tell.
  destruct (tell sols o1) as [[o2 back]|]; [|reflexivity].
  unfold bind, log_event, ret, print. simpl.
  now destruct back.
Qed.

Lemma run_generations_cons (mode : string) (g : Z) (gs : list Z)
    (o : opt) (w : World) :
  run_generations mode (g :: gs) o w =
  match run_generation g mode o w with
  | (Ok o', w') => run_generations mode gs o' w'
  | (Raise e, w') => (Raise e, w')
  end.
Proof. reflexivity. Qed.

Lemma run_cma_es_eq (mode : string) (gens sigma_val : Z) (w : World) :
  run_cma_es mode gens sigma_val w =
  match CMA initial_mean sigma_val with
  | None =>
      (Raise OptimizerError,
       mkWorld [csv_header] (stdout w) (sim_state w) (trace w))
  | Some o =>
      run_generations mode (range gens) o
        (mkWorld [csv_header] (stdout w) (sim_state w)
                 (trace w ++ [EvCMA initial_mean sigma_val]))
  end.
Proof.
  unfold run_cma_es. unfold bind at 1. unfold write_csv.
  unfold bind at 1. unfold new_CMA.
  now destruct (CMA initial_mean sigma_val).
Qed.

(** ** The inner loop *)

Lemma draw_events_app (g : Z) (mode : string) (l1 l2 : list (Z * solution)) :
  draw_events g mode (l1 ++ l2) = draw_events g mode l1 ++ draw_events g mode l2.
Proof. unfold draw_events. apply flat_map_app. Qed.

Lemma evaluate_population_spec (g : Z) (mode : string) (slots : list Z) :
  forall (o : opt) (sols : list solution) (w : World) r w',
    evaluate_population g mode slots o sols w = (r, w') ->
    output_csv w' = output_csv w /\ stdout w' = stdout w /\
    match r with
    | Ok os =>
        exists new,
          snd os = sols ++ new /\ length new = length slots /\
          trace w' = trace w ++ draw_events g mode (combine slots new)
    | Raise e =>
        e <> IndexError /\
        exists t, trace w' = trace w ++ t /\ cut_short g mode slots t
    end.
Proof.
  induction slots as [|i slots IH]; intros o sols w r w' E.
  - simpl in E. injection E as <- <-. repeat split.
    exists []. simpl. now rewrite !app_nil_r.
  - rewrite evaluate_population_cons in E.
    destruct (ask o) as [[x o']|].
    2:{ injection E as <- <-. repeat split; try discriminate.
        exists []. rewrite app_nil_r. split; [reflexivity|].
        exists [], []. simpl. split; [lia|]. now split; [|left]. }
    destruct (run NUM_ITERS x mode (run_label g i) (sim_state w)) as [[f s']|].
    2:{ injection E as <- <-. simpl. repeat split; try discriminate.
        exists [EvAsk x]. split; [reflexivity|].
        exists [], [EvAsk x]. simpl. split; [lia|].
        split; [reflexivity | right; now exists x]. }
    apply IH in E. simpl in E. destruct E as (Hcsv & Hout & Hr).
    split; [assumption|]. split; [assumption|].
    destruct r as [os|e].
    + destruct Hr as (new & Hs & Hl & Ht).
      exists ((x, f) :: new). rewrite Hs, Ht, <- !app_assoc. simpl.
      repeat split. now rewrite Hl.
    + destruct Hr as (He & t & Ht & new & dang & Hl & Hshape & Hd).
      split; [assumption|].
      exists (EvAsk x :: EvRun NUM_ITERS x mode (run_label g i) f :: t).
      rewrite Ht, <- !app_assoc. simpl. split; [reflexivity|].
      exists ((x, f) :: new), dang. simpl. rewrite Hshape.
      split; [lia|]. now split.
Qed.

(** ** One generation *)

(** What one pass of the outer loop's body does: when it returns, a list
    was collected, drawn in full, told, and printed and logged as [tell]
    left it, through its first pair; when it raises, no row was written. *)
Lemma run_generation_spec (g : Z) (mode : string) (o : opt) (w : World) r w' :
  run_generation g mode o w = (r, w') ->
  match r with
  | Ok _ =>
      exists b : batch,
        length (fst b) = population_size o /\
        trace w' = trace w ++ generation_events mode (g, batch_telling b) /\
        output_csv w' = output_csv w ++ [batch_row (g, b)] /\
        stdout w' = stdout w ++ batch_lines (g, b)
  | Raise e =>
      output_csv w' = output_csv w /\
      ((e <> IndexError /\ stdout w' = stdout w /\
        exists t,
          trace w' = trace w ++ EvPopulationSize (population_size o) :: t /\
          cut_short g mode (range (Z.of_nat (population_size o))) t)
       \/
       (e = IndexError /\ stdout w' = stdout w ++ [PFitnesses []] /\
        exists sols,
          length sols = population_size o /\
          trace w' = trace w ++ generation_events mode (g, (sols, []))))
  end.
Proof.
  intros E. rewrite run_generation_eq in E.
  destruct (evaluate_population g mode _ o [] _) as [r1 w2] eqn:E1.
  apply evaluate_population_spec in E1.
  destruct E1 as (Hcsv & Hout & Hr). simpl in Hcsv, Hout, Hr.
  destruct r1 as [[o1 sols]|e1].
  2:{ injection E as <- <-. destruct Hr as (He & t & Ht & Hshape).
      split; [assumption|]. left. repeat split; try assumption.
      exists t. rewrite Ht, <- app_assoc. now split. }
  destruct Hr as (new & Hs & Hl & Ht). simpl in Hs. subst sols.
  rewrite range_of_nat_length in Hl.
  destruct (tell new o1) as [[o2 back]|].
  2:{ injection E as <- <-. split; [assumption|]. left.
      repeat split; try assumption; try discriminate.
      exists (draw_events g mode
                (combine (range (Z.of_nat (population_size o))) new)).
      rewrite Ht, <- app_assoc. split; [reflexivity|].
      exists new, []. rewrite app_nil_r, range_of_nat_length.
      split; [lia|]. now split; [|left]. }
  destruct back as [|s0 rest]; injection E as <- <-; simpl.
  - split; [assumption|]. right.
    split; [reflexivity|]. split; [now rewrite Hout|].
    exists new. split; [assumption|].
    rewrite Ht. unfold generation_events. cbn [fst snd].
    rewrite Hl, <- !app_assoc. reflexivity.
  - exists (new, (s0, rest)).
    unfold batch_telling, batch_left, batch_first, batch_row, batch_lines.
    cbn [fst snd]. repeat split.
    + assumption.
    + rewrite Ht. unfold generation_events. cbn [fst snd].
      rewrite Hl, <- !app_assoc. reflexivity.
    + now rewrite Hcsv.
    + now rewrite Hout, <- app_assoc.
Qed.

(** ** The outer loop *)

(** The generations [done] ran in full, one after the other from the
    first; after them the loop either ended or stopped in the next one. *)
Lemma run_generations_spec (mode : string) (gs : list Z) :
  forall (o : opt) (w : World) r w',
    run_generations mode gs o w = (r, w') ->
    exists (done : list batch) (t : list event) (out : list line),
      trace w' = trace w
                 ++ flat_map (generation_events mode)
                      (combine gs (map batch_telling done))
                 ++ t /\
      output_csv w' = output_csv w ++ map batch_row (combine gs done) /\
      stdout w' = stdout w ++ flat_map batch_lines (combine gs done) ++ out /\
      match r with
      | Ok _ => length done = length gs /\ t = [] /\ out = []
      | Raise e =>
          exists g, nth_error gs (length done) = Some g /\
                    stopped mode g e t out
      end.
Proof.
  induction gs as [|g gs IH]; intros o w r w' E.
  - simpl in E. injection E as <- <-. exists [], [], []. simpl.
    now rewrite !app_nil_r.
  - rewrite run_generations_cons in E.
    destruct (run_generation g mode o w) as [r1 w1] eqn:E1.
    apply run_generation_spec in E1.
    destruct r1 as [o1|e1].
    + destruct E1 as (b & _ & Ht & Hcsv & Hout).
      apply IH in E.
      destruct E as (done & t & out & Ht' & Hcsv' & Hout' & Hr).
      exists (b :: done), t, out.
      cbn [map combine flat_map length nth_error].
      split; [|split; [|split]].
      * rewrite Ht', Ht. now rewrite <- !app_assoc.
      * rewrite Hcsv', Hcsv. now rewrite <- app_assoc.
      * rewrite Hout', Hout. now rewrite <- !app_assoc.
      * destruct r as [u|e]; [|assumption].
        destruct Hr as (Hl & -> & ->). now rewrite Hl.
    + injection E as <- <-. destruct E1 as (Hcsv & Hstop).
      destruct Hstop as [(He & Hout & t & Ht & Hcut)
                        |(He & Hout & sols & _ & Ht)].
      * exists [], (EvPopulationSize (population_size o) :: t), [].
        cbn [map combine flat_map length nth_error app].
        rewrite Ht, Hcsv, Hout, !app_nil_r.
        split; [reflexivity|]. split; [reflexivity|]. split; [reflexivity|].
        exists g. split; [reflexivity|]. left.
        split; [assumption|]. split; [reflexivity|].
        now exists (population_size o), t.
      * exists [], (generation_events mode (g, (sols, []))), [PFitnesses []].
        cbn [map combine flat_map length nth_error app].
        rewrite Ht, Hcsv, Hout, !app_nil_r.
        split; [reflexivity|]. split; [reflexivity|]. split; [reflexivity|].
        exists g. split; [reflexivity|]. right.
        split; [assumption|]. split; [reflexivity|]. now exists sols.
Qed.

(** ** The whole run *)

(** Either the optimizer could not be built, and the run raised with the
    header alone in the file and nothing else done; or it was built, and
    the generations ran as [run_generations_spec] says. *)
Lemma run_cma_es_spec (mode : string) (gens sigma_val : Z)
    (old_csv : list row) (s : sim) r w' :
  run_cma_es mode gens sigma_val (initial_world old_csv s) = (r, w') ->
  (CMA initial_mean sigma_val = None /\ r = Raise OptimizerError /\
   w' = mkWorld [csv_header] [] s [])
  \/
  (exists (o : opt) (done : list batch) (t : list event) (out : list line),
     CMA initial_mean sigma_val = Some o /\
     trace w' = EvCMA initial_mean sigma_val
                :: flat_map (generation_events mode)
                     (combine (range gens) (map batch_telling done))
                ++ t /\
     output_csv w' = csv_header :: map batch_row (combine (range gens) done) /\
     stdout w' = flat_map batch_lines (combine (range gens) done) ++ out /\
     match r with
     | Ok _ => length done = length (range gens) /\ t = [] /\ out = []
     | Raise e =>
         exists g, nth_error (range gens) (length done) = Some g /\
                   stopped mode g e t out
     end).
Proof.
  unfold initial_world. intros E. rewrite run_cma_es_eq in E.
  cbn [output_csv stdout sim_state trace app] in E.
  destruct (CMA initial_mean sigma_val) as [o|].
  2:{ left. injection E as <- <-. now repeat split. }
  right. apply run_generations_spec in E.
  destruct E as (done & t & out & Ht & Hcsv & Hout & Hr).
  exists o, done, t, out. simpl in Ht, Hcsv, Hout.
  repeat split; assumption.
Qed.

(** ** The trace is what was done to the collaborators *)

Lemma replays_snoc (c1 c2 c3 : collaborators) (t : list event) (e : event) :
  replays c1 t c2 -> step c2 e c3 -> replays c1 (t ++ [e]) c3.
Proof.
  intros H Hs. induction H as [c|c e0 c1 t c2 Hstep _ IH]; simpl.
  - econstructor; [eassumption | constructor].
  - econstructor; [eassumption | now apply IH].
Qed.

Lemma evaluate_population_replays (g : Z) (mode : string) (slots : list Z) :
  forall o sols w r w' c0,
    evaluate_population g mode slots o sols w = (r, w') ->
    replays c0 (trace w) (Some o, sim_state w) ->
    exists o_end,
      replays c0 (trace w') (Some o_end, sim_state w') /\
      match r with Ok os => fst os = o_end | Raise _ => True end.
Proof.
  induction slots as [|i slots IH]; intros o sols w r w' c0 E Hw.
  - simpl in E. injection E as <- <-. now exists o.
  - rewrite evaluate_population_cons in E.
    destruct (ask o) as [[x o']|] eqn:Ea.
    2:{ injection E as <- <-. now exists o. }
    assert (Hask : replays c0 (trace w ++ [EvAsk x]) (Some o', sim_state w))
      by (eapply replays_snoc; [eassumption | now constructor]).
    destruct (run NUM_ITERS x mode (run_label g i) (sim_state w))
      as [[f s']|] eqn:Er.
    2:{ injection E as <- <-. now exists o'. }
    eapply IH; [exact E|]. cbn [trace sim_state].
    eapply replays_snoc; [exact Hask | now constructor].
Qed.

Lemma run_generation_replays (g : Z) (mode : string) (o : opt) (w : World)
    r w' c0 :
  run_generation g mode o w = (r, w') ->
  replays c0 (trace w) (Some o, sim_state w) ->
  exists o_end,
    replays c0 (trace w') (Some o_end, sim_state w') /\
    match r with Ok o' => o' = o_end | Raise _ => True end.
Proof.
  intros E Hw. rewrite run_generation_eq in E.
  destruct (evaluate_population g mode _ o [] _) as [r1 w2] eqn:E1.
  eapply evaluate_population_replays in E1.
  2:{ cbn [trace sim_state]. eapply replays_snoc; [exact Hw | constructor]. }
  destruct E1 as (o1' & Hw2 & Ho1).
  destruct r1 as [[o1 sols]|e1].
  2:{ injection E as <- <-. now exists o1'. }
  cbn [fst] in Ho1. subst o1'.
  destruct (tell sols o1) as [[o2 back]|] eqn:Et.
  2:{ injection E as <- <-. now exists o1. }
  assert (Htell : replays c0 (trace w2 ++ [EvTell sols back])
                    (Some o2, sim_state w2))
    by (eapply replays_snoc; [exact Hw2 | now constructor]).
  destruct back as [|s0 rest]; injection E as <- <-; now exists o2.
Qed.

Lemma run_generations_replays (mode : string) (gs : list Z) :
  forall o w r w' c0,
    run_generations mode gs o w = (r, w') ->
    replays c0 (trace w) (Some o, sim_state w) ->
    exists o_end, replays c0 (trace w') (Some o_end, sim_state w').
Proof.
  induction gs as [|g gs IH]; intros o w r w' c0 E Hw.
  - simpl in E. injection E as _ <-. now exists o.
  - rewrite run_generations_cons in E.
    destruct (run_generation g mode o w) as [r1 w1] eqn:E1.
    eapply run_generation_replays in E1; [|exact Hw].
    destruct E1 as (o1' & Hw1 & Ho1).
    destruct r1 as [o1|e1].
    + subst o1'. eapply IH; eassumption.
    + injection E as _ <-. now exists o1'.
Qed.

(** Whatever the outcome of a run, its trace is faithful. *)
Lemma run_cma_es_faithful (mode : string) (gens sigma_val : Z)
    (old_csv : list row) (s : sim) :
  faithful s (snd (run_cma_es mode gens sigma_val (initial_world old_csv s))).
Proof.
  unfold faithful, initial_world. rewrite run_cma_es_eq.
  cbn [output_csv stdout sim_state trace app].
  destruct (CMA initial_mean sigma_val) as [o|] eqn:Ec.
  2:{ exists None. cbn. constructor. }
  destruct (run_generations mode (range gens) o _) as [r w'] eqn:E.
  eapply run_generations_replays in E.
  - destruct E as (o_end & H). exists (Some o_end). exact H.
  - cbn [trace sim_state].
    apply (replays_cons _ _ (Some o, s)); [now apply step_CMA | constructor].
Qed.

(** A [tell] in a faithful trace is a [tell] that was made. *)
Lemma replays_tell (c0 c1 : collaborators) (t : list event)
    (sols back : list solution) :
  replays c0 t c1 -> In (EvTell sols back) t ->
  exists o o', tell sols o = Some (o', back).
Proof.
  intros H Hin. induction H as [c|c e c1 t c2 Hstep _ IH]; [contradiction|].
  destruct Hin as [->|Hin]; [|now apply IH].
  inversion Hstep; subst. eauto.
Qed.

(** ** Reading the trace, the console and the file *)

Lemma nth_error_combine {A B : Type} (l : list A) (l' : list B) (n : nat) :
  nth_error (combine l l') n =
  match nth_error l n, nth_error l' n with
  | Some a, Some b => Some (a, b)
  | _, _ => None
  end.
Proof.
  revert l' n. induction l as [|a l IH]; intros [|b l'] [|n]; simpl; auto.
  now destruct (nth_error l n).
Qed.

Lemma map_snd_combine {A B : Type} (l : list A) (l' : list B) :
  (length l' <= length l)%nat -> map snd (combine l l') = l'.
Proof.
  revert l'. induction l as [|a l IH]; intros [|b l'] H; simpl in *;
    try reflexivity; try lia.
  f_equal. apply IH. lia.
Qed.

Lemma map_combine_snd {A B C : Type} (f : B -> C) (l : list A)
    (l' : list B) :
  (length l' <= length l)%nat ->
  map (fun ab => f (snd ab)) (combine l l') = map f l'.
Proof.
  intros H. rewrite <- (map_map snd f). now rewrite map_snd_combine.
Qed.

Lemma told_app (t1 t2 : list event) : told (t1 ++ t2) = told t1 ++ told t2.
Proof. apply flat_map_app. Qed.

Lemma told_draw_events (g : Z) (mode : string) (l : list (Z * solution)) :
  told (draw_events g mode l) = [].
Proof. induction l as [|js l IH]; simpl; auto. Qed.

Lemma told_generation_events (mode : string) (gt : Z * telling) :
  told (generation_events mode gt) = [fst (snd gt)].
Proof.
  unfold generation_events. cbn [told flat_map app].
  fold (told (draw_events (fst gt) mode
                (combine (range (Z.of_nat (length (fst (snd gt)))))
                         (fst (snd gt)))
              ++ [EvTell (fst (snd gt)) (snd (snd gt))])).
  now rewrite told_app, told_draw_events.
Qed.

Lemma told_generations (mode : string) (l : list (Z * telling)) :
  told (flat_map (generation_events mode) l)
  = map (fun gt => fst (snd gt)) l.
Proof.
  induction l as [|gt l IH]; [reflexivity|].
  cbn [flat_map map]. now rewrite told_app, told_generation_events, IH.
Qed.

Lemma left_by_tell_app (t1 t2 : list event) :
  left_by_tell (t1 ++ t2) = left_by_tell t1 ++ left_by_tell t2.
Proof. apply flat_map_app. Qed.

Lemma left_by_tell_draw_events (g : Z) (mode : string)
    (l : list (Z * solution)) :
  left_by_tell (draw_events g mode l) = [].
Proof. induction l as [|js l IH]; simpl; auto. Qed.

Lemma left_by_tell_generation_events (mode : string) (gt : Z * telling) :
  left_by_tell (generation_events mode gt) = [snd (snd gt)].
Proof.
  unfold generation_events. cbn [left_by_tell flat_map app].
  fold (left_by_tell
          (draw_events (fst gt) mode
             (combine (range (Z.of_nat (length (fst (snd gt)))))
                      (fst (snd gt)))
           ++ [EvTell (fst (snd gt)) (snd (snd gt))])).
  now rewrite left_by_tell_app, left_by_tell_draw_events.
Qed.

Lemma left_by_tell_generations (mode : string) (l : list (Z * telling)) :
  left_by_tell (flat_map (generation_events mode) l)
  = map (fun gt => snd (snd gt)) l.
Proof.
  induction l as [|gt l IH]; [reflexivity|].
  cbn [flat_map map].
  now rewrite left_by_tell_app, left_by_tell_generation_events, IH.
Qed.

Lemma told_cut_short (g : Z) (mode : string) (slots : list Z)
    (t : list event) :
  cut_short g mode slots t -> told t = [].
Proof.
  intros (new & dang & _ & -> & Hd).
  rewrite told_app, told_draw_events.
  destruct Hd as [->|(x & ->)]; reflexivity.
Qed.

Lemma left_by_tell_cut_short (g : Z) (mode : string) (slots : list Z)
    (t : list event) :
  cut_short g mode slots t -> left_by_tell t = [].
Proof.
  intros (new & dang & _ & -> & Hd).
  rewrite left_by_tell_app, left_by_tell_draw_events.
  destruct Hd as [->|(x & ->)]; reflexivity.
Qed.

Lemma bests_app (o1 o2 : list line) : bests (o1 ++ o2) = bests o1 ++ bests o2.
Proof. apply flat_map_app. Qed.

Lemma bests_batches (l : list (Z * batch)) :
  bests (flat_map batch_lines l)
  = map (fun gb => (fst gb, snd (batch_first (snd gb)))) l.
Proof.
  induction l as [|gb l IH]; [reflexivity|].
  cbn [flat_map map]. rewrite bests_app, IH. reflexivity.
Qed.

(** Every pair collected in a generation was drawn in it, and the first
    pair collected is the evaluation of slot 0. *)
Lemma draw_in_generation (mode : string) (g : Z) (s0 : solution)
    (sols back : list solution) :
  In s0 sols -> In (EvAsk (fst s0)) (generation_events mode (g, (sols, back))).
Proof.
  intros Hin. apply In_nth_error in Hin as (k & Hk).
  assert (Hlt : (k < length sols)%nat) by (apply nth_error_Some; congruence).
  unfold generation_events. cbn [fst snd]. right. apply in_or_app. left.
  unfold draw_events. apply in_flat_map.
  exists (Z.of_nat k, s0). split; [|now left].
  apply nth_error_In with (n := k).
  rewrite nth_error_combine, range_nth by lia.
  unfold solution, candidate in *. now rewrite Hk.
Qed.

Lemma first_run_in_generation (mode : string) (g : Z) (s0 : solution)
    (others back : list solution) :
  In (EvRun NUM_ITERS (fst s0) mode (run_label g 0) (snd s0))
     (generation_events mode (g, (s0 :: others, back))).
Proof.
  unfold generation_events, range. cbn [fst snd length].
  rewrite Nat2Z.id. simpl. right. right. left. reflexivity.
Qed.

Lemma tell_in_generation (mode : string) (gt : Z * telling) :
  In (EvTell (fst (snd gt)) (snd (snd gt))) (generation_events mode gt).
Proof.
  unfold generation_events. right. apply in_or_app. right. now left.
Qed.

(** Every generation that ran in full is in the trace. *)
Lemma batch_in_trace (gs : list Z) (done : list batch)
    (g : Z) (b : batch) :
  In (g, b) (combine gs done) ->
  In (g, batch_telling b) (combine gs (map batch_telling done)).
Proof.
  revert done. induction gs as [|g0 gs IH]; intros [|b0 done]; simpl;
    try contradiction.
  intros [[= -> ->]|H]; [now left | right; now apply IH].
Qed.

(** In every outcome the generations that ran in full are no more than
    those asked for. *)
Lemma done_length (mode : string) (gens : Z) (done : list batch)
    (t : list event) (out : list line) (r : res unit) :
  match r with
  | Ok _ => length done = length (range gens) /\ t = [] /\ out = []
  | Raise e =>
      exists g, nth_error (range gens) (length done) = Some g /\
                stopped mode g e t out
  end ->
  (length done <= length (range gens))%nat.
Proof.
  destruct r as [u|e].
  - intros (Hl & _). lia.
  - intros (g & Hg & _).
    assert (H : nth_error (range gens) (length done) <> None) by congruence.
    apply nth_error_Some in H. lia.
Qed.

(** What the generations that ran in full told, and what came back. *)
Lemma told_done (mode : string) (gs : list Z) (done : list batch) :
  (length done <= length gs)%nat ->
  told (flat_map (generation_events mode)
          (combine gs (map batch_telling done)))
  = map fst done /\
  left_by_tell (flat_map (generation_events mode)
                  (combine gs (map batch_telling done)))
  = map batch_left done.
Proof.
  intros Hl. rewrite told_generations, left_by_tell_generations.
  rewrite (map_combine_snd (fun t : telling => fst t)),
          (map_combine_snd (fun t : telling => snd t))
    by (now rewrite length_map).
  now rewrite !map_map.
Qed.

(** ** The row of a generation *)

(** C1. Whatever the outcome of the run, every data row in the file, the
    row of generation [g], is made from the first pair of the list that
    generation [g] collected, as [tell] left that list: the row is [g],
    the fitness of that pair, and the components of its candidate in
    order; and the best fitness printed for [g] is that same fitness.  The
    driver does not sort or search the list itself.  When [tell] leaves
    the list in the order it was collected, the pair is the first one
    collected, the evaluation of slot 0.  The trace these facts are read
    from is faithful. *)
Theorem run_cma_es_logs_first_pair (mode : string) (gens sigma_val : Z)
    (old_csv : list row) (s : sim) (g : nat) (data_row : row) :
  let w' := snd (run_cma_es mode gens sigma_val (initial_world old_csv s)) in
  nth_error (output_csv w') (S g) = Some data_row ->
  faithful s w' /\
  exists (sols : list solution) (x : candidate) (fitness : F)
         (others : list solution),
    nth_error (told (trace w')) g = Some sols /\
    nth_error (left_by_tell (trace w')) g = Some ((x, fitness) :: others) /\
    data_row = [CInt (Z.of_nat g); CFit fitness] ++ map CNum x /\
    nth_error (bests (stdout w')) g = Some (Z.of_nat g, fitness) /\
    (sols = (x, fitness) :: others ->
     In (EvRun NUM_ITERS x mode (run_label (Z.of_nat g) 0) fitness)
        (trace w')).
Proof.
  pose proof (run_cma_es_faithful mode gens sigma_val old_csv s) as Hf.
  destruct (run_cma_es mode gens sigma_val (initial_world old_csv s))
    as [r w'] eqn:E.
  cbn [snd] in *. intros Hrow. split; [exact Hf|].
  apply run_cma_es_spec in E.
  destruct E as [(_ & _ & ->)|(o & done & t & out & _ & Ht & Hcsv & Hout & Hr)].
  { simpl in Hrow. now destruct g. }
  pose proof (done_length mode gens done t out r Hr) as Hlen.
  rewrite Hcsv in Hrow. cbn [nth_error] in Hrow.
  rewrite nth_error_map, nth_error_combine in Hrow.
  destruct (nth_error (range gens) g) as [g'|] eqn:Eg; [|discriminate].
  destruct (nth_error done g) as [[sols [[x f] others]]|] eqn:Eb;
    [|discriminate].
  injection Hrow as <-.
  assert (Hg : (g < length (range gens))%nat)
    by (apply nth_error_Some; congruence).
  rewrite range_length in Hg. rewrite range_nth in Eg by assumption.
  injection Eg as <-.
  assert (Hgd : (g < length done)%nat) by (apply nth_error_Some; congruence).
  destruct (told_done mode (range gens) done Hlen) as (Htold & Hleft).
  exists sols, x, f, others. split; [|split; [|split; [|split]]].
  - rewrite Ht. cbn [told flat_map app].
    fold (told (flat_map (generation_events mode)
                  (combine (range gens) (map batch_telling done)) ++ t)).
    rewrite told_app, Htold.
    rewrite nth_error_app1 by (now rewrite length_map).
    rewrite nth_error_map.
    change (nth_error done g) with (@nth_error batch done g).
    now rewrite Eb.
  - rewrite Ht. cbn [left_by_tell flat_map app].
    fold (left_by_tell (flat_map (generation_events mode)
                          (combine (range gens) (map batch_telling done))
                        ++ t)).
    rewrite left_by_tell_app, Hleft.
    rewrite nth_error_app1 by (now rewrite length_map).
    rewrite nth_error_map.
    change (nth_error done g) with (@nth_error batch done g).
    now rewrite Eb.
  - reflexivity.
  - rewrite Hout, bests_app, bests_batches.
    rewrite nth_error_app1
      by (rewrite length_map, length_combine, range_length; lia).
    rewrite nth_error_map, nth_error_combine.
    rewrite (range_nth gens g Hg).
    change (nth_error done g) with (@nth_error batch done g).
    rewrite Eb. reflexivity.
  - intros ->. rewrite Ht. right. apply in_or_app. left. apply in_flat_map.
    exists (Z.of_nat g,
            batch_telling ((x, f) :: others, ((x, f), others))). split.
    + apply batch_in_trace.
      apply nth_error_In with (n := g).
      rewrite nth_error_combine, (range_nth gens g Hg).
      change (nth_error done g) with (@nth_error batch done g).
      now rewrite Eb.
    + apply (first_run_in_generation mode (Z.of_nat g) (x, f) others).
Qed.

(** ** Runs in which no call raises *)

Section Returns.

Hypothesis ask_returns : forall o, ask o <> None.
Hypothesis tell_returns : forall sols o, tell sols o <> None.
Hypothesis run_returns :
  forall iters x mode label st, run iters x mode label st <> None.
Hypothesis nonempty : population_positive.
Hypothesis reorders : tell_reorders.

Lemma evaluate_population_returns (g : Z) (mode : string) (slots : list Z) :
  forall o sols w,
    exists os w', evaluate_population g mode slots o sols w = (Ok os, w').
Proof.
  induction slots as [|i slots IH]; intros o sols w.
  - now exists (o, sols), w.
  - rewrite evaluate_population_cons.
    destruct (ask o) as [[x o']|] eqn:Ea; [|now apply ask_returns in Ea].
    destruct (run NUM_ITERS x mode (run_label g i) (sim_state w))
      as [[f s']|] eqn:Er; [|now apply run_returns in Er].
    apply IH.
Qed.

Lemma run_generation_returns (g : Z) (mode : string) (o : opt) (w : World) :
  exists o' w', run_generation g mode o w = (Ok o', w').
Proof.
  rewrite run_generation_eq.
  destruct (evaluate_population_returns g mode
              (range (Z.of_nat (population_size o))) o []
              (mkWorld (output_csv w) (stdout w) (sim_state w)
                 (trace w ++ [EvPopulationSize (population_size o)])))
    as ([o1 sols] & w2 & E1).
  rewrite E1. apply evaluate_population_spec in E1.
  destruct E1 as (_ & _ & new & Hs & Hl & _). simpl in Hs. subst sols.
  rewrite range_of_nat_length in Hl. specialize (nonempty o).
  destruct (tell new o1) as [[o2 back]|] eqn:Et;
    [|now apply tell_returns in Et].
  apply reorders in Et. apply Permutation_length in Et.
  unfold solution, candidate in *.
  destruct back as [|s0 rest]; simpl in Et; [lia|].
  eexists _, _. reflexivity.
Qed.

Lemma run_generations_returns (mode : string) (gs : list Z) :
  forall o w, exists w', run_generations mode gs o w = (Ok tt, w').
Proof.
  induction gs as [|g gs IH]; intros o w.
  - now exists w.
  - rewrite run_generations_cons.
    destruct (run_generation_returns g mode o w) as (o' & w1 & ->).
    apply IH.
Qed.

End Returns.

Lemma run_cma_es_returns (mode : string) (gens sigma_val : Z) (w : World) :
  calls_return sigma_val -> population_positive -> tell_reorders ->
  fst (run_cma_es mode gens sigma_val w) = Ok tt.
Proof.
  intros (Hc & Ha & Ht & Hr) Hp Hperm. rewrite run_cma_es_eq.
  destruct (CMA initial_mean sigma_val) as [o|]; [|congruence].
  match goal with
  | |- fst (run_generations ?m ?gs ?o ?w0) = _ =>
      destruct (run_generations_returns Ha Ht Hr Hp Hperm m gs o w0)
        as (w' & ->)
  end.
  reflexivity.
Qed.

(** ** The number of rows *)

(** C2. With no generation to run the file holds the header alone,
    whatever else happens.  A run that returns leaves the header followed
    by one row per generation, so [N + 1] rows for [N > 0] generations;
    and a run does return when every call to the optimizer and to the
    simulator returns, the population is never empty and [tell] does no
    more to the list than reorder it. *)
Theorem run_cma_es_row_count (mode : string) (gens sigma_val : Z)
    (old_csv : list row) (s : sim) :
  let rw := run_cma_es mode gens sigma_val (initial_world old_csv s) in
  (gens = 0 -> output_csv (snd rw) = [csv_header]) /\
  (fst rw = Ok tt ->
   hd_error (output_csv (snd rw)) = Some csv_header /\
   length (output_csv (snd rw)) = S (Z.to_nat gens)) /\
  (0 < gens -> calls_return sigma_val -> population_positive ->
   tell_reorders ->
   fst rw = Ok tt /\
   hd_error (output_csv (snd rw)) = Some csv_header /\
   length (output_csv (snd rw)) = S (Z.to_nat gens)).
Proof.
  cbv zeta.
  assert (Hok : fst (run_cma_es mode gens sigma_val (initial_world old_csv s))
                = Ok tt ->
                hd_error (output_csv (snd (run_cma_es mode gens sigma_val
                                             (initial_world old_csv s))))
                = Some csv_header /\
                length (output_csv (snd (run_cma_es mode gens sigma_val
                                           (initial_world old_csv s))))
                = S (Z.to_nat gens)).
  { destruct (run_cma_es mode gens sigma_val (initial_world old_csv s))
      as [r w'] eqn:E.
    cbn [fst snd]. intros ->. apply run_cma_es_spec in E.
    destruct E as [(_ & Hr & _)|(o & done & t & out & _ & _ & Hcsv & _ & Hr)];
      [discriminate|].
    destruct Hr as (Hl & _). rewrite Hcsv. split; [reflexivity|].
    cbn [length]. rewrite length_map, length_combine, Hl, range_length. lia. }
  split; [|split].
  - intros ->.
    destruct (run_cma_es mode 0 sigma_val (initial_world old_csv s))
      as [r w'] eqn:E.
    cbn [snd]. apply run_cma_es_spec in E.
    destruct E as [(_ & _ & ->)|(o & done & t & out & _ & _ & Hcsv & _)];
      [reflexivity|].
    now rewrite Hcsv.
  - exact Hok.
  - intros _ Hc Hp Hperm.
    pose proof (run_cma_es_returns mode gens sigma_val
                  (initial_world old_csv s) Hc Hp Hperm) as Hr.
    split; [assumption|]. now apply Hok.
Qed.

(** ** The number of columns *)

Lemma csv_header_length : length csv_header = (2 + 3 * NUM_ACTUATORS)%nat.
Proof.
  unfold csv_header.
  assert (H : forall (l : list Z) (init : row),
             length
               (fold_left
                  (fun h i =>
                     h ++ [CStr ("frequency" ++ str i);
                           CStr ("amplitude" ++ str i);
                           CStr ("phase_offset" ++ str i)])
                  l init)
             = (length init + 3 * length l)%nat).
  { induction l as [|i l IH]; intros init; simpl; [lia|].
    rewrite IH, length_app. simpl. lia. }
  rewrite H, range_of_nat_length. reflexivity.
Qed.

(** C3. Whatever the outcome of the run, when every candidate drawn from
    the optimizer has three components per actuator, every row of the
    file, the header and the data rows alike, has two columns plus three
    per actuator, given that [tell] does no more to the list than reorder
    it. *)
Theorem run_cma_es_column_count (mode : string) (gens sigma_val : Z)
    (old_csv : list row) (s : sim) :
  let w' := snd (run_cma_es mode gens sigma_val (initial_world old_csv s)) in
  tell_reorders ->
  Forall (fun x : candidate => length x = (3 * NUM_ACTUATORS)%nat)
         (drawn (trace w')) ->
  Forall (fun r : row => length r = (2 + 3 * NUM_ACTUATORS)%nat)
         (output_csv w').
Proof.
  pose proof (run_cma_es_faithful mode gens sigma_val old_csv s) as Hf.
  destruct (run_cma_es mode gens sigma_val (initial_world old_csv s))
    as [r w'] eqn:E.
  cbn [snd] in *. intros Hperm Hdrawn. apply run_cma_es_spec in E.
  destruct E as [(_ & _ & ->)|(o & done & t & out & _ & Ht & Hcsv & _)].
  { constructor; [apply csv_header_length | constructor]. }
  rewrite Hcsv. constructor; [apply csv_header_length|].
  apply Forall_forall. intros data_row Hin.
  apply in_map_iff in Hin. destruct Hin as ([g b] & <- & Hin).
  assert (Hblock : forall e,
             In e (generation_events mode (g, batch_telling b)) ->
             In e (trace w')).
  { intros e He. rewrite Ht. right. apply in_or_app. left.
    apply in_flat_map. exists (g, batch_telling b).
    split; [now apply batch_in_trace | exact He]. }
  assert (Hfirst : In (batch_first b) (fst b)).
  { destruct Hf as (oo & Hrep).
    destruct (replays_tell _ _ _ (fst b) (batch_left b) Hrep)
      as (o1 & o2 & Htell).
    - apply Hblock. apply (tell_in_generation mode (g, batch_telling b)).
    - apply Hperm in Htell. apply Permutation_sym in Htell.
      apply (Permutation_in _ Htell). now left. }
  rewrite Forall_forall in Hdrawn.
  unfold batch_row, new_row. cbn [fst snd].
  rewrite length_app, length_map. cbn [length]. f_equal. f_equal.
  apply Hdrawn. unfold drawn. apply in_flat_map.
  exists (EvAsk (fst (batch_first b))). split; [|now left].
  apply Hblock.
  exact (draw_in_generation mode g (batch_first b) (fst b) (batch_left b)
           Hfirst).
Qed.

(** ** A sigma the optimizer refuses *)

(** C4. With an optimizer that refuses a non-positive sigma, a run with
    [sigma_val <= 0] raises when it builds the optimizer: the header was
    written before, so the file then holds the header alone, whatever it
    held before the run; nothing was printed and no collaborator was
    called. *)
Theorem run_cma_es_rejected_sigma (mode : string) (gens sigma_val : Z)
    (old_csv : list row) (s : sim) :
  refuses_nonpositive_sigma ->
  sigma_val <= 0 ->
  run_cma_es mode gens sigma_val (initial_world old_csv s)
  = (Raise OptimizerError, mkWorld [csv_header] [] s []).
Proof.
  intros Hrefuse Hsigma. rewrite run_cma_es_eq.
  now rewrite (Hrefuse initial_mean sigma_val Hsigma).
Qed.


(** ** The file and the console are read off what [tell] handed back *)

Lemma rows_from_done (done : list batch) :
  forall (a n : nat) (tail : list (list solution)),
    tail = [] \/ tail = [[]] ->
    (length done <= n)%nat ->
    rows_from (Z.of_nat a) (map batch_left done ++ tail)
    = map batch_row (combine (map Z.of_nat (seq a n)) done).
Proof.
  induction done as [|b done IH]; intros a n tail Htail Hn.
  - cbn [map app]. replace (combine _ []) with (@nil (Z * batch))
      by (now destruct (map Z.of_nat (seq a n))).
    now destruct Htail as [->| ->].
  - destruct n as [|n]; [simpl in Hn; lia|].
    cbn [map app seq combine rows_from batch_left].
    unfold batch_row at 1. cbn [fst snd]. f_equal.
    replace (Z.of_nat a + 1) with (Z.of_nat (S a)) by lia.
    apply IH; [assumption | simpl in Hn; lia].
Qed.

Lemma lines_from_done (done : list batch) :
  forall (a n : nat) (tail : list (list solution)) (out : list line),
    (tail = [] /\ out = []) \/ (tail = [[]] /\ out = [PFitnesses []]) ->
    (length done <= n)%nat ->
    lines_from (Z.of_nat a) (map batch_left done ++ tail)
    = flat_map batch_lines (combine (map Z.of_nat (seq a n)) done) ++ out.
Proof.
  induction done as [|b done IH]; intros a n tail out Htail Hn.
  - cbn [map app]. replace (combine _ []) with (@nil (Z * batch))
      by (now destruct (map Z.of_nat (seq a n))).
    now destruct Htail as [(-> & ->)|(-> & ->)].
  - destruct n as [|n]; [simpl in Hn; lia|].
    cbn [map app seq combine flat_map lines_from batch_left].
    unfold batch_lines at 1. cbn [fst snd app batch_left]. f_equal. f_equal.
    replace (Z.of_nat a + 1) with (Z.of_nat (S a)) by lia.
    apply IH; [assumption | simpl in Hn; lia].
Qed.

(** Whatever the outcome of a run, the file is the header followed by one
    row per list [tell] handed back, made from that list's first pair, and
    the console shows each such list's fitness values and first fitness:
    both are functions of those lists and of nothing else. *)
Lemma run_cma_es_outputs (mode : string) (gens sigma_val : Z)
    (old_csv : list row) (s : sim) :
  let w' := snd (run_cma_es mode gens sigma_val (initial_world old_csv s)) in
  output_csv w' = csv_header :: rows_from 0 (left_by_tell (trace w')) /\
  stdout w' = lines_from 0 (left_by_tell (trace w')).
Proof.
  destruct (run_cma_es mode gens sigma_val (initial_world old_csv s))
    as [r w'] eqn:E.
  cbv zeta. cbn [snd]. apply run_cma_es_spec in E.
  destruct E as [(_ & _ & ->)|(o & done & t & out & _ & Ht & Hcsv & Hout & Hr)].
  { now split. }
  pose proof (done_length mode gens done t out r Hr) as Hlen.
  destruct (told_done mode (range gens) done Hlen) as (_ & Hleft).
  assert (Htail : (left_by_tell t = [] /\ out = [])
                  \/ (left_by_tell t = [[]] /\ out = [PFitnesses []])).
  { destruct r as [u|e].
    - destruct Hr as (_ & -> & ->). now left.
    - destruct Hr as (g & _ & [(_ & -> & p & t' & -> & Hcut)
                              |(_ & -> & sols & ->)]).
      + left. cbn [left_by_tell flat_map app]. fold (left_by_tell t').
        now rewrite (left_by_tell_cut_short _ _ _ _ Hcut).
      + right. now rewrite left_by_tell_generation_events. }
  rewrite range_length in Hlen.
  rewrite Ht. cbn [left_by_tell flat_map app].
  fold (left_by_tell (flat_map (generation_events mode)
                        (combine (range gens) (map batch_telling done))
                      ++ t)).
  rewrite left_by_tell_app, Hleft, Hcsv, Hout. split.
  - f_equal. symmetry.
    apply (rows_from_done done 0 (Z.to_nat gens)); [|assumption].
    destruct Htail as [(-> & _)|(-> & _)]; auto.
  - symmetry.
    now apply (lines_from_done done 0 (Z.to_nat gens)).
Qed.

(** ** Draws and batches *)

Lemma combine_snoc {A B : Type} (l : list A) (l' : list B) (a : A) (b : B) :
  nth_error l (length l') = Some a ->
  combine l (l' ++ [b]) = combine l l' ++ [(a, b)].
Proof.
  revert l. induction l' as [|b0 l' IH]; intros [|a0 l] H; simpl in *;
    try discriminate.
  - injection H as ->. now destruct l.
  - f_equal. now apply IH.
Qed.

(** C5. The calls of a run, whatever its outcome: once the optimizer is
    built, the trace is one block per generation, in order, then a rest
    without any batch report.  The block of a generation reads the
    population size from the optimizer, which is the number of solutions
    it collects; then, slot after slot, draws a candidate and evaluates
    it; then reports the list of the pairs so collected, in the order
    collected, in one call.  A run that returns has a block for every
    generation and an empty rest.  The trace is faithful: these are the
    calls made to the optimizer and the simulator, with these arguments
    and results, each on the state the one before left. *)
Theorem run_cma_es_batches (mode : string) (gens sigma_val : Z)
    (old_csv : list row) (s : sim) :
  let rw := run_cma_es mode gens sigma_val (initial_world old_csv s) in
  faithful s (snd rw) /\
  ((CMA initial_mean sigma_val = None /\ trace (snd rw) = [])
   \/
   exists (batches : list telling) (t : list event),
     trace (snd rw)
     = EvCMA initial_mean sigma_val
       :: flat_map (generation_events mode) (combine (range gens) batches)
       ++ t /\
     (length batches <= length (range gens))%nat /\
     told t = [] /\
     (fst rw = Ok tt -> t = [] /\ length batches = length (range gens))).
Proof.
  pose proof (run_cma_es_faithful mode gens sigma_val old_csv s) as Hf.
  destruct (run_cma_es mode gens sigma_val (initial_world old_csv s))
    as [r w'] eqn:E.
  cbv zeta. cbn [fst snd] in *. split; [exact Hf|].
  apply run_cma_es_spec in E.
  destruct E as [(Hc & _ & ->)|(o & done & t & out & _ & Ht & _ & _ & Hr)];
    [now left | right].
  pose proof (done_length mode gens done t out r Hr) as Hlen.
  destruct r as [u|e].
  - destruct Hr as (Hl & -> & _).
    exists (map batch_telling done), []. rewrite length_map.
    repeat split; assumption.
  - destruct Hr as (g & Hg & [(_ & _ & p & t' & -> & Hcut)
                             |(_ & _ & sols & ->)]).
    + exists (map batch_telling done), (EvPopulationSize p :: t').
      rewrite length_map. repeat split; try assumption; try discriminate.
      cbn [told flat_map app]. fold (told t').
      now apply told_cut_short in Hcut.
    + exists (map batch_telling done ++ [(sols, [])]), [].
      assert (Hlt : (length done < length (range gens))%nat)
        by (apply nth_error_Some; congruence).
      rewrite combine_snoc with (a := g) by (now rewrite length_map).
      rewrite flat_map_app, length_app, length_map. cbn [flat_map length].
      rewrite !app_nil_r in *. rewrite Ht.
      repeat split; try discriminate. lia.
Qed.

(** ** The mode *)

Lemma modes_app (t1 t2 : list event) : modes (t1 ++ t2) = modes t1 ++ modes t2.
Proof. apply flat_map_app. Qed.

Lemma modes_draw_events (g : Z) (mode : string) (l : list (Z * solution)) :
  Forall (eq mode) (modes (draw_events g mode l)).
Proof.
  induction l as [|js l IH]; simpl; [constructor|].
  constructor; [reflexivity | exact IH].
Qed.

Lemma modes_generation_events (mode : string) (gt : Z * telling) :
  Forall (eq mode) (modes (generation_events mode gt)).
Proof.
  unfold generation_events. cbn [modes flat_map app].
  fold (modes (draw_events (fst gt) mode
                 (combine (range (Z.of_nat (length (fst (snd gt)))))
                          (fst (snd gt)))
               ++ [EvTell (fst (snd gt)) (snd (snd gt))])).
  rewrite modes_app. apply Forall_app. split.
  - apply modes_draw_events.
  - constructor.
Qed.

Lemma modes_generations (mode : string) (l : list (Z * telling)) :
  Forall (eq mode) (modes (flat_map (generation_events mode) l)).
Proof.
  induction l as [|gt l IH]; [constructor|].
  cbn [flat_map]. rewrite modes_app. apply Forall_app. split.
  - apply modes_generation_events.
  - exact IH.
Qed.

Lemma modes_cut_short (g : Z) (mode : string) (slots : list Z)
    (t : list event) :
  cut_short g mode slots t -> Forall (eq mode) (modes t).
Proof.
  intros (new & dang & _ & -> & Hd).
  rewrite modes_app. apply Forall_app. split.
  - apply modes_draw_events.
  - destruct Hd as [->|(x & ->)]; constructor.
Qed.

(** Every simulator call of a run is given the run's mode. *)
Lemma run_cma_es_modes (mode : string) (gens sigma_val : Z)
    (old_csv : list row) (s : sim) :
  Forall (eq mode)
    (modes (trace (snd (run_cma_es mode gens sigma_val
                          (initial_world old_csv s))))).
Proof.
  destruct (run_cma_es mode gens sigma_val (initial_world old_csv s))
    as [r w'] eqn:E.
  cbn [snd]. apply run_cma_es_spec in E.
  destruct E as [(_ & _ & ->)|(o & done & t & out & _ & Ht & _ & _ & Hr)];
    [constructor|].
  rewrite Ht. cbn [modes flat_map app].
  fold (modes (flat_map (generation_events mode)
                 (combine (range gens) (map batch_telling done)) ++ t)).
  rewrite modes_app. apply Forall_app. split; [apply modes_generations|].
  destruct r as [u|e].
  - destruct Hr as (_ & -> & _). constructor.
  - destruct Hr as (g & _ & [(_ & _ & p & t' & -> & Hcut)
                            |(_ & _ & sols & ->)]).
    + cbn [modes flat_map app]. fold (modes t').
      now apply modes_cut_short in Hcut.
    + apply modes_generation_events.
Qed.

(** Two modes between which the simulator makes no difference. *)
Section TwoModes.

Variables mode1 mode2 : string.
Hypothesis simulator_agrees :
  forall iters x label st,
    run iters x mode1 label st = run iters x mode2 label st.

Lemma evaluate_population_modes (g : Z) (slots : list Z) :
  forall o sols w1 w2 r1 w1' r2 w2',
    same_but_mode w1 w2 ->
    evaluate_population g mode1 slots o sols w1 = (r1, w1') ->
    evaluate_population g mode2 slots o sols w2 = (r2, w2') ->
    r1 = r2 /\ same_but_mode w1' w2'.
Proof.
  induction slots as [|i slots IH];
    intros o sols w1 w2 r1 w1' r2 w2' Hw E1 E2.
  - simpl in E1, E2. injection E1 as <- <-. injection E2 as <- <-.
    now split.
  - rewrite evaluate_population_cons in E1, E2.
    destruct Hw as (Hc & Ho & Hs & Ht).
    destruct (ask o) as [[x o']|].
    2:{ injection E1 as <- <-. injection E2 as <- <-.
        split; [reflexivity|]. now repeat split. }
    rewrite <- Hs, <- simulator_agrees in E2.
    destruct (run NUM_ITERS x mode1 (run_label g i) (sim_state w1))
      as [[f s']|].
    + eapply IH; [|exact E1|exact E2].
      repeat split; simpl; try assumption.
      rewrite !map_app, Ht. reflexivity.
    + injection E1 as <- <-. injection E2 as <- <-.
      split; [reflexivity|]. repeat split; simpl; try assumption.
      now rewrite !map_app, Ht.
Qed.

Lemma run_generation_modes (g : Z) (o : opt) (w1 w2 : World) r1 w1' r2 w2' :
  same_but_mode w1 w2 ->
  run_generation g mode1 o w1 = (r1, w1') ->
  run_generation g mode2 o w2 = (r2, w2') ->
  r1 = r2 /\ same_but_mode w1' w2'.
Proof.
  intros Hw E1 E2. rewrite run_generation_eq in E1, E2.
  destruct (evaluate_population g mode1 _ o [] _) as [q1 v1] eqn:P1 in E1.
  destruct (evaluate_population g mode2 _ o [] _) as [q2 v2] eqn:P2 in E2.
  assert (Hw1 : same_but_mode
                  (mkWorld (output_csv w1) (stdout w1) (sim_state w1)
                     (trace w1 ++ [EvPopulationSize (population_size o)]))
                  (mkWorld (output_csv w2) (stdout w2) (sim_state w2)
                     (trace w2 ++ [EvPopulationSize (population_size o)]))).
  { destruct Hw as (Hc & Ho & Hs & Ht). repeat split; simpl; try assumption.
    now rewrite !map_app, Ht. }
  destruct (evaluate_population_modes g _ o [] _ _ _ _ _ _ Hw1 P1 P2)
    as (<- & Hc & Ho & Hs & Ht).
  destruct q1 as [[o1 sols]|e].
  2:{ injection E1 as <- <-. injection E2 as <- <-.
      split; [reflexivity|]. now repeat split. }
  destruct (tell sols o1) as [[o2 back]|].
  2:{ injection E1 as <- <-. injection E2 as <- <-.
      split; [reflexivity|]. now repeat split. }
  destruct back as [|s0 rest];
    injection E1 as <- <-; injection E2 as <- <-;
    (split; [reflexivity|]); repeat split; simpl;
    rewrite ?map_app; congruence.
Qed.

Lemma run_generations_modes (gs : list Z) :
  forall o w1 w2 r1 w1' r2 w2',
    same_but_mode w1 w2 ->
    run_generations mode1 gs o w1 = (r1, w1') ->
    run_generations mode2 gs o w2 = (r2, w2') ->
    r1 = r2 /\ same_but_mode w1' w2'.
Proof.
  induction gs as [|g gs IH]; intros o w1 w2 r1 w1' r2 w2' Hw E1 E2.
  - simpl in E1, E2. injection E1 as <- <-. injection E2 as <- <-.
    now split.
  - rewrite run_generations_cons in E1, E2.
    destruct (run_generation g mode1 o w1) as [q1 v1] eqn:P1.
    destruct (run_generation g mode2 o w2) as [q2 v2] eqn:P2.
    destruct (run_generation_modes g o w1 w2 _ _ _ _ Hw P1 P2) as (<- & Hv).
    destruct q1 as [o1|e].
    + eapply IH; eassumption.
    + injection E1 as <- <-. injection E2 as <- <-. now split.
Qed.

Lemma run_cma_es_modes_agree (gens sigma_val : Z) (w : World) :
  fst (run_cma_es mode1 gens sigma_val w)
  = fst (run_cma_es mode2 gens sigma_val w) /\
  same_but_mode (snd (run_cma_es mode1 gens sigma_val w))
                (snd (run_cma_es mode2 gens sigma_val w)).
Proof.
  rewrite !run_cma_es_eq.
  destruct (CMA initial_mean sigma_val) as [o|].
  2:{ split; [reflexivity|]. now repeat split. }
  destruct (run_generations mode1 (range gens) o _) as [r1 w1'] eqn:E1.
  destruct (run_generations mode2 (range gens) o _) as [r2 w2'] eqn:E2.
  cbn [fst snd]. eapply run_generations_modes; [|exact E1|exact E2].
  now repeat split.
Qed.

End TwoModes.

(** C6. The mode is an arbitrary string, and it reaches the simulator as
    given: the trace of a run, whatever its outcome, is faithful, so each
    simulator call in it is a call made with the mode recorded, and every
    one of them records the run's mode.  Nothing else looks at it: the
    file and the console are read off the lists [tell] handed back, the
    optimizer's calls carry no mode, and between two modes for which the
    simulator answers alike, two runs from the same world have the same
    outcome, file, console and simulator state, and the same calls but for
    the mode recorded with the simulator calls. *)
Theorem run_cma_es_mode_passed_through (mode : string) (gens sigma_val : Z)
    (old_csv : list row) (s : sim) :
  let w0 := initial_world old_csv s in
  let w' := snd (run_cma_es mode gens sigma_val w0) in
  faithful s w' /\
  Forall (eq mode) (modes (trace w')) /\
  output_csv w' = csv_header :: rows_from 0 (left_by_tell (trace w')) /\
  stdout w' = lines_from 0 (left_by_tell (trace w')) /\
  forall mode' : string,
    (forall iters x label st,
        run iters x mode label st = run iters x mode' label st) ->
    fst (run_cma_es mode gens sigma_val w0)
    = fst (run_cma_es mode' gens sigma_val w0) /\
    same_but_mode w' (snd (run_cma_es mode' gens sigma_val w0)).
Proof.
  cbv zeta. split; [apply run_cma_es_faithful|].
  split; [apply run_cma_es_modes|].
  destruct (run_cma_es_outputs mode gens sigma_val old_csv s) as (Hcsv & Hout).
  split; [exact Hcsv|]. split; [exact Hout|].
  intros mode' Hagree. now apply run_cma_es_modes_agree.
Qed.

(** ** The labels *)

Lemma map_fst_combine {A B : Type} (l : list A) (l' : list B) :
  map fst (combine l l') = firstn (length l') l.
Proof.
  revert l'. induction l as [|a l IH]; intros [|b l']; simpl;
    try reflexivity.
  f_equal. apply IH.
Qed.

Lemma combine_map_r {A B C : Type} (h : B -> C) (l : list A) (l' : list B) :
  combine l (map h l') = map (fun p => (fst p, h (snd p))) (combine l l').
Proof.
  revert l'. induction l as [|a l IH]; intros [|b l']; simpl;
    try reflexivity.
  f_equal. apply IH.
Qed.

Lemma firstn_snoc {A : Type} (l : list A) (n : nat) (a : A) :
  nth_error l n = Some a -> firstn n l ++ [a] = firstn (S n) l.
Proof.
  revert n. induction l as [|b l IH]; intros [|n] H; simpl in *;
    try discriminate.
  - now injection H as ->.
  - f_equal. now apply IH.
Qed.

Lemma NoDup_firstn {A : Type} (n : nat) (l : list A) :
  NoDup l -> NoDup (firstn n l).
Proof.
  intros H. rewrite <- (firstn_skipn n l) in H.
  now apply NoDup_app_remove_r in H.
Qed.

Lemma range_nth_inv (n : Z) (k : nat) (g : Z) :
  nth_error (range n) k = Some g -> g = Z.of_nat k.
Proof.
  intros H.
  assert (Hk : (k < length (range n))%nat)
    by (apply nth_error_Some; congruence).
  rewrite range_length in Hk. rewrite range_nth in H by assumption.
  now injection H.
Qed.

Lemma firstn_seq (n : nat) :
  forall start len, firstn n (seq start len) = seq start (Nat.min n len).
Proof.
  induction n as [|n IH]; intros start [|len]; simpl; try reflexivity.
  f_equal. apply IH.
Qed.

Lemma firstn_range (n p : nat) :
  firstn n (range (Z.of_nat p)) = range (Z.of_nat (Nat.min n p)).
Proof.
  unfold range. now rewrite firstn_map, !Nat2Z.id, firstn_seq.
Qed.

Lemma labels_app (t1 t2 : list event) :
  labels (t1 ++ t2) = labels t1 ++ labels t2.
Proof. apply flat_map_app. Qed.

Lemma labels_draw_events (g : Z) (mode : string) (l : list (Z * solution)) :
  labels (draw_events g mode l) = map (run_label g) (map fst l).
Proof.
  induction l as [|js l IH]; [reflexivity|].
  simpl. f_equal. exact IH.
Qed.

Lemma labels_generation_events (mode : string) (gt : Z * telling) :
  labels (generation_events mode gt)
  = block_labels (fst gt, slots_of (fst (snd gt))).
Proof.
  unfold generation_events. cbn [labels flat_map app].
  fold (labels (draw_events (fst gt) mode
                  (combine (range (Z.of_nat (length (fst (snd gt)))))
                           (fst (snd gt)))
                ++ [EvTell (fst (snd gt)) (snd (snd gt))])).
  rewrite labels_app, labels_draw_events, map_fst_combine.
  simpl. now rewrite app_nil_r.
Qed.

Lemma labels_generations (mode : string) (l : list (Z * telling)) :
  labels (flat_map (generation_events mode) l)
  = flat_map block_labels
      (map (fun gt => (fst gt, slots_of (fst (snd gt)))) l).
Proof.
  induction l as [|gt l IH]; [reflexivity|].
  cbn [flat_map map]. now rewrite labels_app, labels_generation_events, IH.
Qed.

Lemma labels_cut_short (g : Z) (mode : string) (slots : list Z)
    (t : list event) :
  cut_short g mode slots t ->
  exists n, labels t = block_labels (g, firstn n slots).
Proof.
  intros (new & dang & _ & -> & Hd). exists (length new).
  rewrite labels_app, labels_draw_events, map_fst_combine.
  destruct Hd as [->|(x & ->)]; simpl; now rewrite app_nil_r.
Qed.

(** Blocks of distinct generations, each over distinct slots, have
    distinct labels throughout. *)
Lemma NoDup_block_labels (l : list (Z * list Z)) :
  NoDup (map fst l) -> Forall (fun gl => NoDup (snd gl)) l ->
  NoDup (flat_map block_labels l).
Proof.
  induction l as [|[g slots] l IH]; intros Hg Hs; [constructor|].
  cbn [flat_map map fst] in *.
  apply NoDup_cons_iff in Hg as [Hnotin Hg].
  apply Forall_cons_iff in Hs as [Hslots Hs].
  apply NoDup_app.
  - unfold block_labels. cbn [fst snd].
    apply Injective_map_NoDup; [|assumption].
    intros i j E. now apply run_label_inj in E.
  - now apply IH.
  - intros label Hin1 Hin2.
    unfold block_labels in Hin1. cbn [fst snd] in Hin1.
    apply in_map_iff in Hin1 as (i & <- & _).
    apply in_flat_map in Hin2 as ([g' slots'] & Hin & Hlabel).
    unfold block_labels in Hlabel. cbn [fst snd] in Hlabel.
    apply in_map_iff in Hlabel as (i' & E & _).
    apply run_label_inj in E as [-> _].
    apply Hnotin. apply in_map_iff. now exists (g, slots').
Qed.

Lemma NoDup_slots_of (sols : list solution) : NoDup (slots_of sols).
Proof. apply NoDup_firstn, range_NoDup. Qed.

(** The labels of the generations that ran in full, followed by those of
    one more generation, are distinct. *)
Lemma NoDup_labels_blocks (gens : list Z) (bs : list telling)
    (last : list (Z * list Z)) :
  NoDup gens ->
  match last with
  | [] => True
  | [(g, slots)] => nth_error gens (length bs) = Some g /\ NoDup slots
  | _ => False
  end ->
  NoDup (flat_map block_labels
           (map (fun gt => (fst gt, slots_of (fst (snd gt))))
                (combine gens bs)
            ++ last)).
Proof.
  intros Hgens Hlast. apply NoDup_block_labels.
  - rewrite map_app, map_map. cbn [fst].
    change (map (fun x : Z * telling => fst x) (combine gens bs))
      with (map fst (combine gens bs)).
    destruct last as [|[g slots] [|]]; try contradiction.
    + rewrite app_nil_r, map_fst_combine. now apply NoDup_firstn.
    + destruct Hlast as (Hg & _). cbn [map fst].
      rewrite map_fst_combine. unfold telling in *.
      rewrite (firstn_snoc _ _ _ Hg). now apply NoDup_firstn.
  - apply Forall_app. split.
    + apply Forall_forall. intros gl Hin.
      apply in_map_iff in Hin as (gt & <- & _). apply NoDup_slots_of.
    + destruct last as [|[g slots] [|]]; try contradiction.
      * constructor.
      * constructor; [apply Hlast | constructor].
Qed.

Lemma run_cma_es_labels_NoDup (mode : string) (gens sigma_val : Z)
    (old_csv : list row) (s : sim) :
  NoDup (labels (trace (snd (run_cma_es mode gens sigma_val
                               (initial_world old_csv s))))).
Proof.
  destruct (run_cma_es mode gens sigma_val (initial_world old_csv s))
    as [r w'] eqn:E.
  cbn [snd]. apply run_cma_es_spec in E.
  destruct E as [(_ & _ & ->)|(o & done & t & out & _ & Ht & _ & _ & Hr)];
    [constructor|].
  rewrite Ht. cbn [labels flat_map app].
  fold (labels (flat_map (generation_events mode)
                  (combine (range gens) (map batch_telling done)) ++ t)).
  rewrite labels_app, labels_generations.
  destruct r as [u|e].
  - destruct Hr as (_ & -> & _). cbn [labels flat_map]. rewrite app_nil_r.
    rewrite <- (app_nil_r (map _ _)).
    apply NoDup_labels_blocks; [apply range_NoDup | exact I].
  - destruct Hr as (g & Hg & [(_ & _ & p & t' & -> & Hcut)
                             |(_ & _ & sols & ->)]).
    + cbn [labels flat_map app]. fold (labels t').
      apply labels_cut_short in Hcut as (n & ->).
      rewrite <- (app_nil_r (block_labels _)).
      change (block_labels (g, firstn n (range (Z.of_nat p))) ++ [])
        with (flat_map block_labels [(g, firstn n (range (Z.of_nat p)))]).
      rewrite <- flat_map_app.
      apply NoDup_labels_blocks; [apply range_NoDup|].
      rewrite length_map. split; [assumption|].
      apply NoDup_firstn, range_NoDup.
    + rewrite labels_generation_events. cbn [fst snd].
      rewrite <- (app_nil_r (block_labels _)).
      change (block_labels (g, slots_of sols) ++ [])
        with (flat_map block_labels [(g, slots_of sols)]).
      rewrite <- flat_map_app.
      apply NoDup_labels_blocks; [apply range_NoDup|].
      rewrite length_map. split; [assumption | apply NoDup_slots_of].
Qed.

(** C7. Two simulator runs with different (generation, slot) pairs get
    different labels: the label determines the pair.  The trace of a run,
    whatever its outcome, is faithful, so the labels in it are the labels
    the simulator was called with, and no label occurs in it twice.  The
    label goes to the simulator and nowhere else: the optimizer's calls
    take no label, and the file and the console are read off the lists
    [tell] handed back. *)
Theorem run_labels_distinct (mode : string) (gens sigma_val : Z)
    (old_csv : list row) (s : sim) :
  let w' := snd (run_cma_es mode gens sigma_val (initial_world old_csv s)) in
  (forall g i g' i' : Z,
     (g, i) <> (g', i') -> run_label g i <> run_label g' i') /\
  faithful s w' /\
  NoDup (labels (trace w')) /\
  output_csv w' = csv_header :: rows_from 0 (left_by_tell (trace w')) /\
  stdout w' = lines_from 0 (left_by_tell (trace w')).
Proof.
  cbv zeta. split.
  { intros g i g' i' Hne E. apply run_label_inj in E as [-> ->].
    now apply Hne. }
  split; [apply run_cma_es_faithful|].
  split; [apply run_cma_es_labels_NoDup|].
  apply run_cma_es_outputs.
Qed.

(** ** The command line *)

(** C8. Without arguments the parser returns the defaults, so the script
    runs [run_cma_es] with mode ["h"], 100 generations and sigma 2.  The
    token after [--sigma] goes through [int]: a token [int] refuses is
    refused by the parser and nothing runs, and a token it accepts gives
    its integer as sigma. *)
Theorem main_defaults_and_integer_sigma :
  parse_args [] = Some (mkNamespace "h" 100 2) /\
  (forall w, main [] w = Some (run_cma_es "h" 100 2 w)) /\
  (forall token rest,
     py_int token = None ->
     parse_args ("--sigma" :: token :: rest) = None /\
     forall w, main ("--sigma" :: token :: rest) w = None) /\
  (forall token n w,
     is_value token = true -> py_int token = Some n ->
     main ["--sigma"; token] w = Some (run_cma_es "h" 100 n w)).
Proof.
  split; [reflexivity|]. split; [reflexivity|]. split.
  - intros token rest Hint.
    assert (Hp : parse_args ("--sigma" :: token :: rest) = None).
    { unfold parse_args. cbn [parse_from].
      destruct (negb (is_value token)); [reflexivity|].
      cbn. now rewrite Hint. }
    split; [exact Hp|]. intros w. unfold main. now rewrite Hp.
  - intros token n w Hval Hint. unfold main, parse_args. cbn [parse_from].
    rewrite Hval. cbn. now rewrite Hint.
Qed.

(** ** A negative number of generations *)

(** C9. A negative [gens] is not refused and behaves as zero: the loop
    body never runs, so the file holds the header alone, no candidate is
    drawn, no batch told and no simulation run.  The run returns as soon
    as the optimizer is built, and raises what the constructor raised when
    it is not. *)
Theorem run_cma_es_negative_gens (mode : string) (gens sigma_val : Z)
    (old_csv : list row) (s : sim) :
  gens < 0 ->
  let rw := run_cma_es mode gens sigma_val (initial_world old_csv s) in
  rw = run_cma_es mode 0 sigma_val (initial_world old_csv s) /\
  output_csv (snd rw) = [csv_header] /\
  drawn (trace (snd rw)) = [] /\
  told (trace (snd rw)) = [] /\
  labels (trace (snd rw)) = [] /\
  (CMA initial_mean sigma_val <> None ->
   rw = (Ok tt, mkWorld [csv_header] [] s [EvCMA initial_mean sigma_val])) /\
  (CMA initial_mean sigma_val = None ->
   rw = (Raise OptimizerError, mkWorld [csv_header] [] s [])).
Proof.
  intros Hneg. cbv zeta. rewrite !run_cma_es_eq.
  rewrite (range_nonpos gens) by lia. rewrite (range_nonpos 0) by lia.
  destruct (CMA initial_mean sigma_val) as [o|]; cbn.
  - repeat split. discriminate.
  - repeat split. congruence.
Qed.

(** ** The initial mean *)

(** C10. The mean the optimizer is built from is the triple (average
    frequency, average amplitude, average phase offset) once per actuator,
    so it has three components per actuator; and a run builds the optimizer
    from this mean and its sigma before anything else is called. *)
Theorem initial_mean_layout (mode : string) (gens sigma_val : Z)
    (old_csv : list row) (s : sim) :
  initial_mean
  = concat (repeat [AVG_FREQ; AVG_AMP; AVG_PHASE_OFFSET] NUM_ACTUATORS) /\
  length initial_mean = (3 * NUM_ACTUATORS)%nat /\
  (forall k, (k < NUM_ACTUATORS)%nat ->
     nth_error initial_mean (3 * k) = Some AVG_FREQ /\
     nth_error initial_mean (3 * k + 1) = Some AVG_AMP /\
     nth_error initial_mean (3 * k + 2) = Some AVG_PHASE_OFFSET) /\
  let w' := snd (run_cma_es mode gens sigma_val (initial_world old_csv s)) in
  match CMA initial_mean sigma_val with
  | Some _ => hd_error (trace w') = Some (EvCMA initial_mean sigma_val)
  | None => trace w' = []
  end.
Proof.
  split; [|split; [|split]].
  - unfold initial_mean.
    induction NUM_ACTUATORS as [|n IH]; [reflexivity|].
    cbn [list_mul repeat concat]. now rewrite IH.
  - unfold initial_mean. rewrite list_mul_length. simpl. lia.
  - intros k Hk. unfold initial_mean.
    pose proof (list_mul_nth [AVG_FREQ; AVG_AMP; AVG_PHASE_OFFSET]
                  NUM_ACTUATORS k) as H.
    cbn [length] in H.
    replace (3 * k)%nat with (k * 3 + 0)%nat by lia.
    replace (k * 3 + 0 + 1)%nat with (k * 3 + 1)%nat by lia.
    replace (k * 3 + 0 + 2)%nat with (k * 3 + 2)%nat by lia.
    rewrite !H by lia. now repeat split.
  - cbv zeta.
    destruct (run_cma_es mode gens sigma_val (initial_world old_csv s))
      as [r w'] eqn:E.
    cbn [snd]. apply run_cma_es_spec in E.
    destruct E as [(-> & _ & ->)|(o & done & t & out & -> & -> & _)];
      reflexivity.
Qed.

(** ** The header, column by column *)

Lemma fold_left_app_flat_map {A B : Type} (g : A -> list B) (l : list A) :
  forall init, fold_left (fun h i => h ++ g i) l init = init ++ flat_map g l.
Proof.
  induction l as [|a l IH]; intros init; simpl.
  - now rewrite app_nil_r.
  - now rewrite IH, app_assoc.
Qed.

Lemma csv_header_eq :
  csv_header
  = [CStr "generation"; CStr "best_fitness"]
    ++ flat_map header_columns (range (Z.of_nat NUM_ACTUATORS)).
Proof.
  unfold csv_header.
  apply (fold_left_app_flat_map header_columns).
Qed.

Lemma nth_error_flat_map_blocks {A B : Type} (g : A -> list B) (m : nat)
    (l : list A) :
  (forall i, length (g i) = m) ->
  forall k j a,
    nth_error l k = Some a -> (j < m)%nat ->
    nth_error (flat_map g l) (k * m + j) = nth_error (g a) j.
Proof.
  intros Hm. induction l as [|b l IH]; intros k j a Hk Hj.
  - now destruct k.
  - destruct k as [|k]; simpl in Hk.
    + injection Hk as ->. simpl. apply nth_error_app1. now rewrite Hm.
    + cbn [flat_map]. rewrite nth_error_app2 by (rewrite Hm; simpl; lia).
      rewrite Hm.
      replace (S k * m + j - m)%nat with (k * m + j)%nat by (simpl; lia).
      now apply IH.
Qed.

(** X1. The header starts with "generation" and "best_fitness"; after
    them, for every actuator [k], columns [2 + 3k], [3 + 3k] and [4 + 3k]
    are named frequency, amplitude and phase_offset followed by the
    decimal numeral of [k]. *)
Theorem csv_header_layout :
  nth_error csv_header 0 = Some (CStr "generation") /\
  nth_error csv_header 1 = Some (CStr "best_fitness") /\
  forall k, (k < NUM_ACTUATORS)%nat ->
    nth_error csv_header (2 + 3 * k)
    = Some (CStr ("frequency" ++ str (Z.of_nat k))) /\
    nth_error csv_header (3 + 3 * k)
    = Some (CStr ("amplitude" ++ str (Z.of_nat k))) /\
    nth_error csv_header (4 + 3 * k)
    = Some (CStr ("phase_offset" ++ str (Z.of_nat k))).
Proof.
  rewrite csv_header_eq. split; [reflexivity|]. split; [reflexivity|].
  intros k Hk.
  assert (Hr : nth_error (range (Z.of_nat NUM_ACTUATORS)) k
               = Some (Z.of_nat k)) by (apply range_nth; lia).
  pose proof (nth_error_flat_map_blocks header_columns 3
                (range (Z.of_nat NUM_ACTUATORS))
                (fun i => eq_refl) k) as H.
  replace (2 + 3 * k)%nat with (2 + (k * 3 + 0))%nat by lia.
  replace (3 + 3 * k)%nat with (2 + (k * 3 + 1))%nat by lia.
  replace (4 + 3 * k)%nat with (2 + (k * 3 + 2))%nat by lia.
  cbn [app nth_error Nat.add].
  rewrite (H 0%nat _ Hr), (H 1%nat _ Hr), (H 2%nat _ Hr) by lia.
  now repeat split.
Qed.

(** Two actuators never share a column name. *)
Lemma header_columns_disjoint (i j : Z) (c : cell) :
  In c (header_columns i) -> In c (header_columns j) -> i = j.
Proof.
  unfold header_columns.
  intros [<-|[<-|[<-|[]]]] [E|[E|[E|[]]]]; simpl in E;
    try discriminate; injection E as E; now apply str_inj.
Qed.

Lemma header_columns_NoDup (i : Z) : NoDup (header_columns i).
Proof.
  unfold header_columns.
  repeat constructor; simpl; intros H;
    repeat (destruct H as [H|H]; [discriminate H|]); exact H.
Qed.

(** X2. No two columns of the header have the same name. *)
Theorem csv_header_NoDup : NoDup csv_header.
Proof.
  rewrite csv_header_eq.
  assert (Hfm : forall l, NoDup l -> NoDup (flat_map header_columns l)).
  { induction l as [|i l IH]; intros Hl; [constructor|].
    apply NoDup_cons_iff in Hl as [Hi Hl]. cbn [flat_map].
    apply NoDup_app.
    - apply header_columns_NoDup.
    - now apply IH.
    - intros c Hc1 Hc2. apply in_flat_map in Hc2 as (j & Hj & Hc2).
      rewrite (header_columns_disjoint i j c Hc1 Hc2) in Hi.
      contradiction. }
  apply NoDup_app.
  - repeat constructor; simpl; intros H;
      repeat (destruct H as [H|H]; [discriminate H|]); exact H.
  - apply Hfm, range_NoDup.
  - intros c Hc1 Hc2. apply in_flat_map in Hc2 as (j & _ & Hc2).
    unfold header_columns in Hc2.
    destruct Hc1 as [<-|[<-|[]]];
      repeat (destruct Hc2 as [Hc2|Hc2]; [discriminate Hc2|]); exact Hc2.
Qed.

(** ** The console *)

Lemma printed_lists_app (o1 o2 : list line) :
  printed_lists (o1 ++ o2) = printed_lists o1 ++ printed_lists o2.
Proof. apply flat_map_app. Qed.

Lemma printed_lists_batches (l : list (Z * batch)) :
  printed_lists (flat_map batch_lines l)
  = map (fun gb => map snd (batch_left (snd gb))) l.
Proof.
  induction l as [|gb l IH]; [reflexivity|].
  cbn [flat_map map]. rewrite printed_lists_app, IH. reflexivity.
Qed.

(** In a faithful trace under [tell_reorders], each list [tell] handed
    back is a reordering of the list it was handed. *)
Lemma told_left_permutation (t : list event) :
  (forall sols back, In (EvTell sols back) t -> Permutation sols back) ->
  Forall2 (@Permutation solution) (told t) (left_by_tell t).
Proof.
  induction t as [|e t IH]; intros H; [constructor|].
  assert (IH' : Forall2 (@Permutation solution) (told t) (left_by_tell t))
    by (apply IH; intros sols back Hin; apply H; now right).
  destruct e; cbn [told left_by_tell flat_map app]; try exact IH'.
  constructor; [|exact IH']. apply H. now left.
Qed.

(** X3. Whatever the outcome of the run, the lists of fitness values
    printed are, in order, the fitness values of the lists [tell] handed
    back, in the order [tell] left them: one list per batch told.  When
    [tell] does no more than reorder, each printed list is a reordering of
    the fitness values of the batch collected in that generation.  A run
    that returns printed two lines per generation.  The trace is
    faithful. *)
Theorem run_cma_es_prints_told_fitness (mode : string) (gens sigma_val : Z)
    (old_csv : list row) (s : sim) :
  let rw := run_cma_es mode gens sigma_val (initial_world old_csv s) in
  faithful s (snd rw) /\
  printed_lists (stdout (snd rw))
  = map (map snd) (left_by_tell (trace (snd rw))) /\
  (tell_reorders ->
   Forall2 (fun fs sols => Permutation fs (map snd sols))
           (printed_lists (stdout (snd rw))) (told (trace (snd rw)))) /\
  (fst rw = Ok tt -> length (stdout (snd rw)) = (2 * Z.to_nat gens)%nat).
Proof.
  pose proof (run_cma_es_faithful mode gens sigma_val old_csv s) as Hf.
  destruct (run_cma_es mode gens sigma_val (initial_world old_csv s))
    as [r w'] eqn:E.
  cbv zeta. cbn [fst snd] in *. split; [exact Hf|].
  assert (Hprinted : printed_lists (stdout w')
                     = map (map snd) (left_by_tell (trace w'))).
  { apply run_cma_es_spec in E.
    destruct E as [(_ & _ & ->)
                  |(o & done & t & out & _ & Ht & _ & Hout & Hr)];
      [reflexivity|].
    pose proof (done_length mode gens done t out r Hr) as Hlen.
    destruct (told_done mode (range gens) done Hlen) as (_ & Hleft).
    rewrite Ht, Hout. cbn [left_by_tell flat_map app].
    fold (left_by_tell (flat_map (generation_events mode)
                          (combine (range gens) (map batch_telling done))
                        ++ t)).
    rewrite printed_lists_app, left_by_tell_app, map_app, Hleft.
    rewrite printed_lists_batches, map_map.
    rewrite (map_combine_snd (fun b : batch => map snd (batch_left b)))
      by assumption.
    f_equal. destruct r as [u|e].
    - now destruct Hr as (_ & -> & ->).
    - destruct Hr as (g & _ & [(_ & -> & p & t' & -> & Hcut)
                              |(_ & -> & sols & ->)]).
      + cbn [left_by_tell flat_map app]. fold (left_by_tell t').
        now rewrite (left_by_tell_cut_short _ _ _ _ Hcut).
      + now rewrite left_by_tell_generation_events. }
  split; [exact Hprinted|]. split.
  - intros Hperm. rewrite Hprinted.
    assert (H : Forall2 (@Permutation solution)
                  (told (trace w')) (left_by_tell (trace w'))).
    { apply told_left_permutation. intros sols back Hin.
      destruct Hf as (oo & Hrep).
      destruct (replays_tell _ _ _ sols back Hrep Hin) as (o1 & o2 & Htell).
      now apply Hperm in Htell. }
    clear - H. induction H as [|sols back ts bs Hp _ IH]; [constructor|].
    cbn [map]. constructor; [|exact IH].
    apply Permutation_map, Permutation_sym, Hp.
  - intros ->. apply run_cma_es_spec in E.
    destruct E as [(_ & Hr & _)|(o & done & t & out & _ & _ & _ & Hout & Hr)];
      [discriminate|].
    destruct Hr as (Hl & _ & ->). rewrite Hout, app_nil_r.
    assert (H2 : forall l : list (Z * batch),
               length (flat_map batch_lines l) = (2 * length l)%nat).
    { induction l as [|gb l IH]; [reflexivity|].
      cbn [flat_map]. rewrite length_app, IH. simpl. lia. }
    rewrite H2, length_combine, Hl, range_length. lia.
Qed.

(** ** Rows, best lines and batches *)

(** X4. Whatever the outcome of the run, the file starts with the header,
    has one data row for each "Best Fitness" line printed, no more data
    rows than batches told, and no more than generations asked for. *)
Theorem run_cma_es_rows_match_console (mode : string) (gens sigma_val : Z)
    (old_csv : list row) (s : sim) :
  let w' := snd (run_cma_es mode gens sigma_val (initial_world old_csv s)) in
  hd_error (output_csv w') = Some csv_header /\
  length (output_csv w') = S (length (bests (stdout w'))) /\
  (length (output_csv w') <= S (length (told (trace w'))))%nat /\
  (length (output_csv w') <= S (Z.to_nat gens))%nat.
Proof.
  destruct (run_cma_es mode gens sigma_val (initial_world old_csv s))
    as [r w'] eqn:E.
  cbv zeta. cbn [snd]. apply run_cma_es_spec in E.
  destruct E as [(_ & _ & ->)
                |(o & done & t & out & _ & Ht & Hcsv & Hout & Hr)].
  { cbn. repeat split; lia. }
  pose proof (done_length mode gens done t out r Hr) as Hlen.
  destruct (told_done mode (range gens) done Hlen) as (Htold & _).
  rewrite range_length in Hlen.
  assert (Hrows : length (output_csv w') = S (length done)).
  { rewrite Hcsv. cbn [length].
    rewrite length_map, length_combine, range_length. lia. }
  assert (Hout0 : bests out = []).
  { destruct r as [u|e].
    - now destruct Hr as (_ & _ & ->).
    - now destruct Hr as (g & _ & [(_ & -> & _)|(_ & -> & _)]). }
  split; [now rewrite Hcsv|]. split; [|split].
  - rewrite Hrows, Hout, bests_app, bests_batches, Hout0, app_nil_r.
    rewrite length_map, length_combine, range_length. lia.
  - rewrite Hrows, Ht. cbn [told flat_map app].
    fold (told (flat_map (generation_events mode)
                  (combine (range gens) (map batch_telling done)) ++ t)).
    rewrite told_app, Htold, length_app, length_map.
    unfold batch, solution, candidate in *. lia.
  - lia.
Qed.

(** X10. For a positive number of generations the file tells whether the
    run went through: it has a row for every generation, header apart,
    exactly when the run returned. *)
Theorem run_cma_es_complete_file_iff (mode : string) (gens sigma_val : Z)
    (old_csv : list row) (s : sim) :
  0 < gens ->
  let rw := run_cma_es mode gens sigma_val (initial_world old_csv s) in
  fst rw = Ok tt <-> length (output_csv (snd rw)) = S (Z.to_nat gens).
Proof.
  intros Hpos.
  destruct (run_cma_es mode gens sigma_val (initial_world old_csv s))
    as [r w'] eqn:E.
  cbv zeta. cbn [fst snd]. apply run_cma_es_spec in E.
  destruct E as [(_ & -> & ->)|(o & done & t & out & _ & _ & Hcsv & _ & Hr)].
  { cbn. split; [discriminate | lia]. }
  rewrite Hcsv. cbn [length].
  rewrite length_map, length_combine, range_length.
  destruct r as [[]|e].
  - destruct Hr as (Hl & _). rewrite range_length in Hl.
    split; [lia | reflexivity].
  - destruct Hr as (g & Hg & _).
    assert (H : (length done < length (range gens))%nat)
      by (apply nth_error_Some; congruence).
    rewrite range_length in H. split; [discriminate | lia].
Qed.

(** ** An empty population *)

Lemma range_pos (n : Z) : 0 < n -> exists l, range n = 0 :: l.
Proof.
  intros Hn. unfold range.
  destruct (Z.to_nat n) as [|k] eqn:E; [lia|].
  simpl. eauto.
Qed.

(** X5. With an optimizer whose population is empty, a run of one
    generation or more draws nothing, tells the empty batch, prints the
    empty list of fitness values and then raises [IndexError] at
    [solutions[0]]: no "Best Fitness" line is printed and the file holds
    the header alone. *)
Theorem run_cma_es_empty_population (mode : string) (gens sigma_val : Z)
    (old_csv : list row) (s : sim) (o o' : opt) :
  0 < gens ->
  CMA initial_mean sigma_val = Some o ->
  population_size o = O ->
  tell [] o = Some (o', []) ->
  run_cma_es mode gens sigma_val (initial_world old_csv s)
  = (Raise IndexError,
     mkWorld [csv_header] [PFitnesses []] s
             [EvCMA initial_mean sigma_val; EvPopulationSize 0;
              EvTell [] []]).
Proof.
  intros Hgens Hcma Hpop Htell.
  rewrite run_cma_es_eq, Hcma.
  destruct (range_pos gens Hgens) as (l & ->).
  rewrite run_generations_cons, run_generation_eq, Hpop.
  change (range (Z.of_nat 0)) with (@nil Z).
  unfold initial_world. simpl.
  change (@tell R F cmaes [] o) with (tell [] o).
  now rewrite Htell.
Qed.

(** ** What the simulator is given and what the optimizer is told *)

Lemma budgets_app (t1 t2 : list event) :
  budgets (t1 ++ t2) = budgets t1 ++ budgets t2.
Proof. apply flat_map_app. Qed.

Lemma budgets_draw_events (g : Z) (mode : string) (l : list (Z * solution)) :
  Forall (eq NUM_ITERS) (budgets (draw_events g mode l)).
Proof.
  induction l as [|js l IH]; simpl; [constructor|].
  constructor; [reflexivity | exact IH].
Qed.

Lemma budgets_generation_events (mode : string) (gt : Z * telling) :
  Forall (eq NUM_ITERS) (budgets (generation_events mode gt)).
Proof.
  unfold generation_events. cbn [budgets flat_map app].
  fold (budgets (draw_events (fst gt) mode
                   (combine (range (Z.of_nat (length (fst (snd gt)))))
                            (fst (snd gt)))
                 ++ [EvTell (fst (snd gt)) (snd (snd gt))])).
  rewrite budgets_app. apply Forall_app. split.
  - apply budgets_draw_events.
  - constructor.
Qed.

Lemma budgets_generations (mode : string) (l : list (Z * telling)) :
  Forall (eq NUM_ITERS) (budgets (flat_map (generation_events mode) l)).
Proof.
  induction l as [|gt l IH]; [constructor|].
  cbn [flat_map]. rewrite budgets_app. apply Forall_app.
  split; [apply budgets_generation_events | exact IH].
Qed.

(** X6. Whatever the outcome of the run, every simulator call is given
    the simulator's own iteration count [NUM_ITERS] as its budget: the
    trace is faithful, and every simulator call in it has that budget. *)
Theorem run_cma_es_fixed_budget (mode : string) (gens sigma_val : Z)
    (old_csv : list row) (s : sim) :
  let w' := snd (run_cma_es mode gens sigma_val (initial_world old_csv s)) in
  faithful s w' /\ Forall (eq NUM_ITERS) (budgets (trace w')).
Proof.
  pose proof (run_cma_es_faithful mode gens sigma_val old_csv s) as Hf.
  destruct (run_cma_es mode gens sigma_val (initial_world old_csv s))
    as [r w'] eqn:E.
  cbv zeta. cbn [snd] in *. split; [exact Hf|]. apply run_cma_es_spec in E.
  destruct E as [(_ & _ & ->)|(o & done & t & out & _ & Ht & _ & _ & Hr)];
    [constructor|].
  rewrite Ht. cbn [budgets flat_map app].
  fold (budgets (flat_map (generation_events mode)
                   (combine (range gens) (map batch_telling done)) ++ t)).
  rewrite budgets_app. apply Forall_app. split.
  - apply budgets_generations.
  - destruct r as [u|e].
    + destruct Hr as (_ & -> & _). constructor.
    + destruct Hr as (g & _ & [(_ & _ & p & t' & -> & Hcut)
                              |(_ & _ & sols & ->)]).
      * cbn [budgets flat_map app]. fold (budgets t').
        destruct Hcut as (new & dang & _ & -> & Hd).
        rewrite budgets_app. apply Forall_app.
        split; [apply budgets_draw_events|].
        destruct Hd as [->|(x & ->)]; constructor.
      * apply budgets_generation_events.
Qed.

Lemma evaluated_app (t1 t2 : list event) :
  evaluated (t1 ++ t2) = evaluated t1 ++ evaluated t2.
Proof. apply flat_map_app. Qed.

Lemma evaluated_draw_events (g : Z) (mode : string)
    (l : list (Z * solution)) :
  evaluated (draw_events g mode l) = map snd l.
Proof.
  induction l as [|[i [x f]] l IH]; [reflexivity|].
  simpl. f_equal. exact IH.
Qed.

Lemma evaluated_generation_events (mode : string) (gt : Z * telling) :
  evaluated (generation_events mode gt) = fst (snd gt).
Proof.
  unfold generation_events. cbn [evaluated flat_map app].
  fold (evaluated (draw_events (fst gt) mode
                     (combine (range (Z.of_nat (length (fst (snd gt)))))
                              (fst (snd gt)))
                   ++ [EvTell (fst (snd gt)) (snd (snd gt))])).
  rewrite evaluated_app, evaluated_draw_events.
  rewrite map_snd_combine by (now rewrite range_of_nat_length).
  simpl. now rewrite app_nil_r.
Qed.

Lemma evaluated_generations (mode : string) (l : list (Z * telling)) :
  evaluated (flat_map (generation_events mode) l)
  = concat (told (flat_map (generation_events mode) l)).
Proof.
  induction l as [|gt l IH]; [reflexivity|].
  cbn [flat_map].
  rewrite evaluated_app, told_app, concat_app, IH.
  rewrite evaluated_generation_events, told_generation_events.
  simpl. now rewrite app_nil_r.
Qed.

(** X8. Whatever the outcome of the run, its trace is faithful and falls
    into two parts.  In the first, which ends with the last batch told,
    the pairs told to the optimizer, batch after batch, are the candidates
    the simulator was run on, each with the fitness that run returned,
    unchanged and in the order of the runs.  The second holds no batch
    report: the evaluations in it, made after the last batch was told, are
    the only ones not told.  In a run that returns the second part is
    empty. *)
Theorem run_cma_es_tells_evaluations (mode : string) (gens sigma_val : Z)
    (old_csv : list row) (s : sim) :
  let rw := run_cma_es mode gens sigma_val (initial_world old_csv s) in
  faithful s (snd rw) /\
  exists t1 t2 : list event,
    trace (snd rw) = t1 ++ t2 /\
    evaluated t1 = concat (told t1) /\
    told t2 = [] /\
    (fst rw = Ok tt -> t2 = []).
Proof.
  pose proof (run_cma_es_faithful mode gens sigma_val old_csv s) as Hf.
  destruct (run_cma_es mode gens sigma_val (initial_world old_csv s))
    as [r w'] eqn:E.
  cbv zeta. cbn [fst snd] in *. split; [exact Hf|].
  apply run_cma_es_spec in E.
  destruct E as [(_ & -> & ->)|(o & done & t & out & _ & Ht & _ & _ & Hr)].
  { exists [], []. now repeat split. }
  set (blocks := flat_map (generation_events mode)
                   (combine (range gens) (map batch_telling done))) in *.
  assert (Hb : evaluated (EvCMA initial_mean sigma_val :: blocks)
               = concat (told (EvCMA initial_mean sigma_val :: blocks))).
  { cbn [evaluated told flat_map app]. fold (evaluated blocks).
    fold (told blocks). apply evaluated_generations. }
  destruct r as [u|e].
  - destruct Hr as (_ & -> & _).
    exists (EvCMA initial_mean sigma_val :: blocks), [].
    rewrite Ht, !app_nil_r. now repeat split.
  - destruct Hr as (g & _ & [(_ & _ & p & t' & -> & Hcut)
                            |(_ & _ & sols & ->)]).
    + exists (EvCMA initial_mean sigma_val :: blocks),
             (EvPopulationSize p :: t').
      rewrite Ht. split; [reflexivity|]. split; [exact Hb|].
      split; [|discriminate].
      cbn [told flat_map app]. fold (told t').
      now apply told_cut_short in Hcut.
    + exists ((EvCMA initial_mean sigma_val :: blocks)
              ++ generation_events mode (g, (sols, []))), [].
      rewrite Ht, app_nil_r. split; [reflexivity|]. split.
      * rewrite evaluated_app, told_app, concat_app, Hb.
        rewrite evaluated_generation_events, told_generation_events.
        simpl. now rewrite app_nil_r.
      * split; [reflexivity | discriminate].
Qed.

(** ** The labels, one by one *)

Lemma slots_of_range (sols : list solution) :
  slots_of sols = range (Z.of_nat (length sols)).
Proof.
  unfold slots_of. apply firstn_all2. now rewrite range_of_nat_length.
Qed.

Lemma labels_generations_exact (mode : string) (l : list (Z * telling)) :
  labels (flat_map (generation_events mode) l)
  = flat_map generation_labels (map (fun gt => (fst gt, fst (snd gt))) l).
Proof.
  induction l as [|gt l IH]; [reflexivity|].
  cbn [flat_map map]. rewrite labels_app, labels_generation_events, IH.
  unfold block_labels, generation_labels. cbn [fst snd].
  now rewrite slots_of_range.
Qed.

(** X7. Whatever the outcome of the run, its trace is faithful, and the
    labels passed to the simulator are, generation after generation, the
    generation's index, an underscore and the slot's index, for the slots
    0, 1, ... of each batch told; after them come only the labels of the
    first slots of the next generation, the one that raised.  In a run
    that returns there are no others. *)
Theorem run_cma_es_labels (mode : string) (gens sigma_val : Z)
    (old_csv : list row) (s : sim) :
  let rw := run_cma_es mode gens sigma_val (initial_world old_csv s) in
  faithful s (snd rw) /\
  exists k : nat,
    labels (trace (snd rw))
    = flat_map generation_labels
        (combine (range gens) (told (trace (snd rw))))
      ++ map (run_label (Z.of_nat (length (told (trace (snd rw))))))
             (range (Z.of_nat k)) /\
    (fst rw = Ok tt -> k = O).
Proof.
  pose proof (run_cma_es_faithful mode gens sigma_val old_csv s) as Hf.
  destruct (run_cma_es mode gens sigma_val (initial_world old_csv s))
    as [r w'] eqn:E.
  cbv zeta. cbn [fst snd] in *. split; [exact Hf|].
  apply run_cma_es_spec in E.
  destruct E as [(_ & -> & ->)|(o & done & t & out & _ & Ht & _ & _ & Hr)].
  { exists O. split; [|reflexivity]. cbn. now destruct (range gens). }
  pose proof (done_length mode gens done t out r Hr) as Hlen.
  destruct (told_done mode (range gens) done Hlen) as (Hdone & _).
  assert (Htold : told (trace w') = map fst done ++ told t).
  { rewrite Ht. cbn [told flat_map app].
    fold (told (flat_map (generation_events mode)
                  (combine (range gens) (map batch_telling done)) ++ t)).
    now rewrite told_app, Hdone. }
  assert (Hlabels : labels (trace w')
                    = flat_map generation_labels
                        (combine (range gens) (map fst done))
                      ++ labels t).
  { rewrite Ht. cbn [labels flat_map app].
    fold (labels (flat_map (generation_events mode)
                    (combine (range gens) (map batch_telling done)) ++ t)).
    rewrite labels_app, labels_generations_exact. f_equal. f_equal.
    rewrite combine_map_r, map_map.
    rewrite (combine_map_r (fun b : batch => fst b)).
    reflexivity. }
  rewrite Hlabels, Htold.
  destruct r as [u|e].
  - destruct Hr as (_ & -> & _). exists O. cbn [told labels flat_map].
    rewrite !app_nil_r. now split.
  - destruct Hr as (g & Hg & [(_ & _ & p & t' & -> & Hcut)
                             |(_ & _ & sols & ->)]).
    + apply labels_cut_short in Hcut as Hl. destruct Hl as (n & Hl).
      exists (Nat.min n p). split; [|discriminate].
      cbn [told labels flat_map app]. fold (told t'). fold (labels t').
      rewrite (told_cut_short _ _ _ _ Hcut), app_nil_r, Hl.
      unfold block_labels. cbn [fst snd].
      rewrite firstn_range, length_map.
      now rewrite (range_nth_inv _ _ _ Hg).
    + exists O. split; [|discriminate].
      rewrite told_generation_events, labels_generation_events.
      cbn [fst snd].
      rewrite combine_snoc with (a := g) by (now rewrite length_map).
      rewrite flat_map_app. cbn [flat_map map range Z.of_nat Z.to_nat seq].
      unfold block_labels, generation_labels. cbn [fst snd].
      now rewrite slots_of_range, !app_nil_r.
Qed.

(** ** Draws and evaluations *)

Lemma drawn_app (t1 t2 : list event) :
  drawn (t1 ++ t2) = drawn t1 ++ drawn t2.
Proof. apply flat_map_app. Qed.

Lemma drawn_draw_events (g : Z) (mode : string) (l : list (Z * solution)) :
  drawn (draw_events g mode l) = map fst (evaluated (draw_events g mode l)).
Proof.
  induction l as [|[i [x f]] l IH]; [reflexivity|].
  simpl. f_equal. exact IH.
Qed.

Lemma drawn_generation_events (mode : string) (gt : Z * telling) :
  drawn (generation_events mode gt)
  = map fst (evaluated (generation_events mode gt)).
Proof.
  unfold generation_events. cbn [drawn evaluated flat_map app].
  fold (drawn (draw_events (fst gt) mode
                 (combine (range (Z.of_nat (length (fst (snd gt)))))
                          (fst (snd gt)))
               ++ [EvTell (fst (snd gt)) (snd (snd gt))])).
  fold (evaluated (draw_events (fst gt) mode
                     (combine (range (Z.of_nat (length (fst (snd gt)))))
                              (fst (snd gt)))
                   ++ [EvTell (fst (snd gt)) (snd (snd gt))])).
  rewrite drawn_app, evaluated_app, map_app, drawn_draw_events.
  reflexivity.
Qed.

Lemma drawn_generations (mode : string) (l : list (Z * telling)) :
  drawn (flat_map (generation_events mode) l)
  = map fst (evaluated (flat_map (generation_events mode) l)).
Proof.
  induction l as [|gt l IH]; [reflexivity|].
  cbn [flat_map].
  now rewrite drawn_app, evaluated_app, map_app, drawn_generation_events, IH.
Qed.

(** X9. Whatever the outcome of the run, its trace is faithful, and the
    simulator is run on the candidates drawn from the optimizer and on
    nothing else, each once and in the order drawn; at most one candidate,
    the last one drawn, is left without evaluation, and none is in a run
    that returns. *)
Theorem run_cma_es_evaluates_draws (mode : string) (gens sigma_val : Z)
    (old_csv : list row) (s : sim) :
  let rw := run_cma_es mode gens sigma_val (initial_world old_csv s) in
  faithful s (snd rw) /\
  exists pending : list candidate,
    drawn (trace (snd rw))
    = map fst (evaluated (trace (snd rw))) ++ pending /\
    (length pending <= 1)%nat /\
    (fst rw = Ok tt -> pending = []).
Proof.
  pose proof (run_cma_es_faithful mode gens sigma_val old_csv s) as Hf.
  destruct (run_cma_es mode gens sigma_val (initial_world old_csv s))
    as [r w'] eqn:E.
  cbv zeta. cbn [fst snd] in *. split; [exact Hf|].
  apply run_cma_es_spec in E.
  destruct E as [(_ & -> & ->)|(o & done & t & out & _ & Ht & _ & _ & Hr)].
  { exists []. split; [reflexivity|]. split; [simpl; lia | discriminate]. }
  assert (Hsplit : forall pending,
             drawn t = map fst (evaluated t) ++ pending ->
             drawn (trace w') = map fst (evaluated (trace w')) ++ pending).
  { intros pending Hp. rewrite Ht. cbn [drawn evaluated flat_map app].
    fold (drawn (flat_map (generation_events mode)
                   (combine (range gens) (map batch_telling done)) ++ t)).
    fold (evaluated (flat_map (generation_events mode)
                       (combine (range gens) (map batch_telling done))
                     ++ t)).
    rewrite drawn_app, evaluated_app, map_app, drawn_generations, Hp.
    now rewrite app_assoc. }
  destruct r as [u|e].
  - destruct Hr as (_ & -> & _). exists [].
    split; [now apply Hsplit | split; [simpl; lia | reflexivity]].
  - destruct Hr as (g & _ & [(_ & _ & p & t' & -> & Hcut)
                            |(_ & _ & sols & ->)]).
    + destruct Hcut as (new & dang & _ & -> & Hd).
      exists (drawn dang). split; [|split; [|discriminate]].
      * apply Hsplit. cbn [drawn evaluated flat_map app].
        fold (drawn (draw_events g mode (combine (range (Z.of_nat p)) new)
                     ++ dang)).
        fold (evaluated (draw_events g mode
                           (combine (range (Z.of_nat p)) new) ++ dang)).
        rewrite drawn_app, evaluated_app, map_app, drawn_draw_events.
        destruct Hd as [->|(x & ->)]; simpl; now rewrite !app_nil_r.
      * destruct Hd as [->|(x & ->)]; simpl; lia.
    + exists []. split; [|split; [simpl; lia | discriminate]].
      apply Hsplit. now rewrite drawn_generation_events, app_nil_r.
Qed.

(** ** Where [IndexError] can come from *)

Lemma run_generations_index_error (mode : string) (gs : list Z) :
  population_positive -> tell_reorders ->
  forall o w e w',
    run_generations mode gs o w = (Raise e, w') -> e <> IndexError.
Proof.
  intros Hpos Hperm. induction gs as [|g gs IH]; intros o w e w' E.
  - discriminate E.
  - rewrite run_generations_cons in E.
    destruct (run_generation g mode o w) as [[o1|e1] w1] eqn:E1.
    + now apply IH in E.
    + injection E as <- <-. rewrite run_generation_eq in E1.
      destruct (evaluate_population g mode _ o [] _) as [r1 w2] eqn:E2.
      apply evaluate_population_spec in E2.
      destruct E2 as (_ & _ & Hr).
      destruct r1 as [[o2 sols]|e2].
      2:{ injection E1 as <- _. now destruct Hr. }
      destruct Hr as (new & Hs & Hl & _). simpl in Hs. subst sols.
      rewrite range_of_nat_length in Hl. specialize (Hpos o).
      destruct (tell new o2) as [[o3 back]|] eqn:Et.
      2:{ injection E1 as <- _. discriminate. }
      apply Hperm, Permutation_length in Et.
      unfold solution, candidate in *.
      destruct back as [|s0 rest]; simpl in Et; [lia | discriminate].
Qed.

(** X12. With an optimizer whose population is never empty and whose
    [tell] does no more to the list than reorder it, [solutions[0]] never
    fails: a run that raises raises what the optimizer or the simulator
    raised, never [IndexError]. *)
Theorem run_cma_es_no_index_error (mode : string) (gens sigma_val : Z)
    (old_csv : list row) (s : sim) :
  population_positive -> tell_reorders ->
  fst (run_cma_es mode gens sigma_val (initial_world old_csv s))
  <> Raise IndexError.
Proof.
  intros Hpos Hperm. rewrite run_cma_es_eq.
  destruct (CMA initial_mean sigma_val) as [o|]; [|discriminate].
  destruct (run_generations mode (range gens) o _) as [[u|e] w'] eqn:E;
    [discriminate|].
  cbn [fst]. intros [= ->].
  now apply (run_generations_index_error mode _ Hpos Hperm) in E.
Qed.

End Driver.

(** ** The small optimizer's [tell] only reorders *)

Lemma toy_insert_perm (s : list Z * Z) (l : list (list Z * Z)) :
  Permutation (s :: l) (toy_insert s l).
Proof.
  induction l as [|t l IH]; simpl; [reflexivity|].
  destruct (snd s <=? snd t); [reflexivity|].
  rewrite perm_swap. now constructor.
Qed.

Lemma toy_sort_perm (l : list (list Z * Z)) : Permutation l (toy_sort l).
Proof.
  induction l as [|s l IH]; simpl; [constructor|].
  rewrite <- toy_insert_perm. now constructor.
Qed.

Lemma toy_tell_reorders : @tell_reorders Z Z toy_optimizer.
Proof.
  intros sols o o' back H. simpl in H. injection H as _ <-.
  apply toy_sort_perm.
Qed.

(** ** The theorems at work on the small optimizer and simulator *)

(** One generation of three candidates, evaluated in the order 16, 4, 64.
    The optimizer's [tell] sorts the list, so the row carries fitness 4 and
    the second candidate drawn, not the first pair collected. *)
Lemma run_cma_es_logs_first_pair_counterexample :
  let w' := snd (run_cma_es "h" 1 2 (@initial_world Z Z toy_simulator [] O)) in
  ~ (exists x fitness others,
       nth_error (told (trace w')) 0 = Some ((x, fitness) :: others) /\
       nth_error (output_csv w') 1
       = Some ([CInt 0; CFit fitness] ++ map CNum x)).
Proof.
  cbv zeta. intros (x & fitness & others & H1 & H2).
  vm_compute in H1. injection H1 as <- <- _.
  vm_compute in H2. discriminate H2.
Qed.

(** The same generation, with the sorting optimizer and with the one whose
    [tell] leaves the list alone: the row is the first pair of the list as
    [tell] left it, fitness 4 in the one case and 16 in the other. *)
Lemma run_cma_es_logs_first_pair_witness :
  let w' := snd (run_cma_es "h" 1 2 (@initial_world Z Z toy_simulator [] O)) in
  let v' := snd (@run_cma_es Z Z toy_plain_optimizer toy_simulator "h" 1 2
                   (@initial_world Z Z toy_simulator [] O)) in
  nth_error (output_csv w') 1
  = Some [CInt 0; CFit 4; CNum 4; CNum 6; CNum 8; CNum 4; CNum 6; CNum 8] /\
  nth_error (left_by_tell (trace w')) 0
  = Some [([4; 6; 8; 4; 6; 8], 4); ([3; 5; 7; 3; 5; 7], 16);
          ([5; 7; 9; 5; 7; 9], 64)] /\
  (faithful O w' /\
   exists sols x fitness others,
     nth_error (told (trace w')) 0 = Some sols /\
     nth_error (left_by_tell (trace w')) 0 = Some ((x, fitness) :: others) /\
     [CInt 0; CFit 4; CNum 4; CNum 6; CNum 8; CNum 4; CNum 6; CNum 8]
     = [CInt (Z.of_nat 0); CFit fitness] ++ map CNum x /\
     nth_error (bests (stdout w')) 0 = Some (Z.of_nat 0, fitness) /\
     (sols = (x, fitness) :: others ->
      In (EvRun NUM_ITERS x "h" (run_label (Z.of_nat 0) 0) fitness)
         (trace w'))) /\
  nth_error (output_csv v') 1
  = Some [CInt 0; CFit 16; CNum 3; CNum 5; CNum 7; CNum 3; CNum 5; CNum 7] /\
  (@faithful Z Z toy_plain_optimizer toy_simulator O v' /\
   exists sols x fitness others,
     nth_error (told (trace v')) 0 = Some sols /\
     nth_error (left_by_tell (trace v')) 0 = Some ((x, fitness) :: others) /\
     [CInt 0; CFit 16; CNum 3; CNum 5; CNum 7; CNum 3; CNum 5; CNum 7]
     = [CInt (Z.of_nat 0); CFit fitness] ++ map CNum x /\
     nth_error (bests (stdout v')) 0 = Some (Z.of_nat 0, fitness) /\
     (sols = (x, fitness) :: others ->
      In (EvRun NUM_ITERS x "h" (run_label (Z.of_nat 0) 0) fitness)
         (trace v'))).
Proof.
  split; [reflexivity|]. split; [reflexivity|]. split.
  - apply (@run_cma_es_logs_first_pair Z Z toy_optimizer toy_simulator
             "h" 1 2 [] O 0).
    reflexivity.
  - split; [reflexivity|].
    apply (@run_cma_es_logs_first_pair Z Z toy_plain_optimizer toy_simulator
             "h" 1 2 [] O 0).
    reflexivity.
Defined.

Lemma run_cma_es_row_count_witness :
  0 < 2 /\
  @calls_return Z Z toy_optimizer toy_simulator 2 /\
  @population_positive Z Z toy_optimizer /\
  @tell_reorders Z Z toy_optimizer /\
  let rw := run_cma_es "h" 2 2 (@initial_world Z Z toy_simulator [] O) in
  fst rw = Ok tt /\
  hd_error (output_csv (snd rw)) = Some csv_header /\
  length (output_csv (snd rw)) = 3%nat.
Proof.
  assert (Hc : @calls_return Z Z toy_optimizer toy_simulator 2)
    by (repeat split; intros; discriminate).
  assert (Hp : @population_positive Z Z toy_optimizer)
    by (intros o; simpl; lia).
  split; [lia|]. split; [exact Hc|]. split; [exact Hp|].
  split; [exact toy_tell_reorders|].
  apply (proj2 (proj2 (@run_cma_es_row_count Z Z toy_optimizer toy_simulator
                         "h" 2 2 [] O)));
    [lia | exact Hc | exact Hp | exact toy_tell_reorders].
Defined.

Lemma run_cma_es_column_count_witness :
  let w' := snd (run_cma_es "h" 2 2 (@initial_world Z Z toy_simulator [] O)) in
  @tell_reorders Z Z toy_optimizer /\
  Forall (fun x : list Z => length x = 6%nat) (drawn (trace w')) /\
  Forall (fun r => length r = 8%nat) (output_csv w').
Proof.
  assert (H : Forall (fun x : list Z => length x = 6%nat)
                (drawn (trace (snd (run_cma_es "h" 2 2
                                      (@initial_world Z Z toy_simulator [] O))))))
    by (vm_compute; repeat constructor).
  split; [exact toy_tell_reorders|]. split; [exact H|].
  apply (@run_cma_es_column_count Z Z toy_optimizer toy_simulator
           "h" 2 2 [] O toy_tell_reorders).
  exact H.
Defined.

Lemma run_cma_es_rejected_sigma_witness :
  @refuses_nonpositive_sigma Z Z toy_optimizer /\
  0 <= 0 /\
  run_cma_es "h" 5 0 (@initial_world Z Z toy_simulator [[CInt 9]] O)
  = (Raise OptimizerError, mkWorld [csv_header] [] O []).
Proof.
  assert (H : @refuses_nonpositive_sigma Z Z toy_optimizer).
  { intros mean sigma Hs. simpl.
    destruct (Z.leb_spec sigma 0); [reflexivity | lia]. }
  split; [exact H|]. split; [lia|].
  apply (@run_cma_es_rejected_sigma Z Z toy_optimizer toy_simulator);
    [exact H | lia].
Defined.

Lemma run_cma_es_batches_witness :
  let rw := run_cma_es "h" 2 2 (@initial_world Z Z toy_simulator [] O) in
  fst rw = Ok tt /\
  faithful O (snd rw) /\
  ((CMA initial_mean 2 = None /\ trace (snd rw) = [])
   \/
   exists batches t,
     trace (snd rw)
     = EvCMA initial_mean 2
       :: flat_map (generation_events "h") (combine (range 2) batches) ++ t /\
     (length batches <= length (range 2))%nat /\
     told t = [] /\
     (fst rw = Ok tt -> t = [] /\ length batches = length (range 2))).
Proof.
  split; [reflexivity|].
  exact (@run_cma_es_batches Z Z toy_optimizer toy_simulator "h" 2 2 [] O).
Defined.

Lemma run_cma_es_mode_passed_through_witness :
  let w0 := @initial_world Z Z toy_simulator [] O in
  (forall iters x label st,
      run iters x "h" label st = run iters x "loud" label st) /\
  fst (run_cma_es "h" 2 2 w0) = fst (run_cma_es "loud" 2 2 w0) /\
  same_but_mode (snd (run_cma_es "h" 2 2 w0)) (snd (run_cma_es "loud" 2 2 w0)).
Proof.
  assert (H : forall iters x label (st : @sim Z Z toy_simulator),
             run iters x "h" label st = run iters x "loud" label st)
    by (intros; reflexivity).
  split; [exact H|].
  apply (proj2 (proj2 (proj2 (proj2
           (@run_cma_es_mode_passed_through Z Z toy_optimizer toy_simulator
              "h" 2 2 [] O)))) "loud").
  exact H.
Defined.

Lemma run_labels_distinct_witness :
  (0, 1) <> (1, 0) /\ run_label 0 1 <> run_label 1 0.
Proof.
  assert (H : (0, 1) <> (1, 0)) by discriminate.
  split; [exact H|].
  apply (proj1 (@run_labels_distinct Z Z toy_optimizer toy_simulator
                  "h" 2 2 [] O) 0 1 1 0).
  exact H.
Defined.

Lemma main_defaults_and_integer_sigma_witness :
  toy_int "0.5" = None /\
  parse_args toy_int ["--sigma"; "0.5"] = None /\
  forall w : @World Z Z toy_simulator,
    main toy_int ["--sigma"; "0.5"] w = None.
Proof.
  split; [reflexivity|].
  apply (proj1 (proj2 (proj2 (@main_defaults_and_integer_sigma
                                Z Z toy_optimizer toy_simulator toy_int)))).
  reflexivity.
Defined.

(** A negative number of generations with a sigma the optimizer refuses:
    the run does not return. *)
Lemma run_cma_es_negative_gens_counterexample :
  -3 < 0 /\
  fst (run_cma_es "h" (-3) 0 (@initial_world Z Z toy_simulator [] O))
  <> Ok tt.
Proof. split; [lia | discriminate]. Qed.

Lemma run_cma_es_negative_gens_witness :
  -3 < 0 /\
  run_cma_es "h" (-3) 2 (@initial_world Z Z toy_simulator [[CInt 9]] O)
  = (Ok tt, mkWorld [csv_header] [] O [EvCMA initial_mean 2]) /\
  run_cma_es "h" (-3) 0 (@initial_world Z Z toy_simulator [[CInt 9]] O)
  = (Raise OptimizerError, mkWorld [csv_header] [] O []).
Proof.
  split; [lia|]. split.
  - apply (@run_cma_es_negative_gens Z Z toy_optimizer toy_simulator
             "h" (-3) 2 [[CInt 9]] O); [lia|].
    discriminate.
  - apply (@run_cma_es_negative_gens Z Z toy_optimizer toy_simulator
             "h" (-3) 0 [[CInt 9]] O); [lia|].
    reflexivity.
Defined.

Lemma initial_mean_layout_witness :
  (1 < 2)%nat /\
  nth_error (@initial_mean Z Z toy_simulator) 3 = Some 3 /\
  nth_error (@initial_mean Z Z toy_simulator) 4 = Some 5 /\
  nth_error (@initial_mean Z Z toy_simulator) 5 = Some 7.
Proof.
  split; [lia|].
  apply (proj1 (proj2 (proj2 (@initial_mean_layout Z Z toy_optimizer
                                toy_simulator "h" 2 2 [] O))) 1%nat).
  simpl. lia.
Defined.

Lemma csv_header_layout_witness :
  (1 < 2)%nat /\
  nth_error (@csv_header Z Z toy_simulator) 5 = Some (CStr "frequency1") /\
  nth_error (@csv_header Z Z toy_simulator) 6 = Some (CStr "amplitude1") /\
  nth_error (@csv_header Z Z toy_simulator) 7 = Some (CStr "phase_offset1").
Proof.
  split; [lia|].
  apply (proj2 (proj2 (@csv_header_layout Z Z toy_simulator)) 1%nat).
  simpl. lia.
Defined.

Lemma run_cma_es_prints_told_fitness_witness :
  let rw := run_cma_es "h" 2 2 (@initial_world Z Z toy_simulator [] O) in
  fst rw = Ok tt /\
  map (map snd) (told (trace (snd rw))) = [[16; 4; 64]; [16; 4; 64]] /\
  printed_lists (stdout (snd rw)) = [[4; 16; 64]; [4; 16; 64]] /\
  Forall2 (fun fs sols => Permutation fs (map snd sols))
          (printed_lists (stdout (snd rw))) (told (trace (snd rw))) /\
  length (stdout (snd rw)) = 4%nat.
Proof.
  split; [reflexivity|]. split; [reflexivity|]. split; [reflexivity|].
  split.
  - apply (proj1 (proj2 (proj2 (@run_cma_es_prints_told_fitness Z Z
                                  toy_optimizer toy_simulator
                                  "h" 2 2 [] O)))).
    exact toy_tell_reorders.
  - apply (proj2 (proj2 (proj2 (@run_cma_es_prints_told_fitness Z Z
                                  toy_optimizer toy_simulator
                                  "h" 2 2 [] O)))).
    reflexivity.
Defined.

Lemma run_cma_es_empty_population_witness :
  0 < 3 /\
  @run_cma_es Z Z toy_empty_optimizer toy_simulator "h" 3 2
    (@initial_world Z Z toy_simulator [[CInt 9]] O)
  = (Raise IndexError,
     mkWorld [csv_header] [PFitnesses []] O
             [EvCMA initial_mean 2; EvPopulationSize 0; EvTell [] []]).
Proof.
  split; [lia|].
  apply (@run_cma_es_empty_population Z Z toy_empty_optimizer toy_simulator
           "h" 3 2 [[CInt 9]] O tt tt);
    [lia | reflexivity | reflexivity | reflexivity].
Defined.

Lemma run_cma_es_labels_witness :
  let rw := run_cma_es "h" 2 2 (@initial_world Z Z toy_simulator [] O) in
  fst rw = Ok tt /\
  labels (trace (snd rw)) = ["0_0"; "0_1"; "0_2"; "1_0"; "1_1"; "1_2"] /\
  faithful O (snd rw) /\
  exists k,
    labels (trace (snd rw))
    = flat_map generation_labels (combine (range 2) (told (trace (snd rw))))
      ++ map (run_label (Z.of_nat (length (told (trace (snd rw))))))
             (range (Z.of_nat k)) /\
    (fst rw = Ok tt -> k = O).
Proof.
  split; [reflexivity|]. split; [reflexivity|].
  exact (@run_cma_es_labels Z Z toy_optimizer toy_simulator "h" 2 2 [] O).
Defined.

Lemma run_cma_es_tells_evaluations_witness :
  let rw := run_cma_es "h" 2 2 (@initial_world Z Z toy_simulator [] O) in
  fst rw = Ok tt /\
  faithful O (snd rw) /\
  exists t1 t2,
    trace (snd rw) = t1 ++ t2 /\
    evaluated t1 = concat (told t1) /\
    told t2 = [] /\
    (fst rw = Ok tt -> t2 = []).
Proof.
  split; [reflexivity|].
  exact (@run_cma_es_tells_evaluations Z Z toy_optimizer toy_simulator
           "h" 2 2 [] O).
Defined.

Lemma run_cma_es_evaluates_draws_witness :
  let rw := run_cma_es "h" 2 2 (@initial_world Z Z toy_simulator [] O) in
  fst rw = Ok tt /\
  faithful O (snd rw) /\
  exists pending,
    drawn (trace (snd rw)) = map fst (evaluated (trace (snd rw))) ++ pending /\
    (length pending <= 1)%nat /\
    (fst rw = Ok tt -> pending = []).
Proof.
  split; [reflexivity|].
  exact (@run_cma_es_evaluates_draws Z Z toy_optimizer toy_simulator
           "h" 2 2 [] O).
Defined.

Lemma run_cma_es_complete_file_iff_witness :
  0 < 2 /\
  let rw := run_cma_es "h" 2 2 (@initial_world Z Z toy_simulator [] O) in
  (fst rw = Ok tt <-> length (output_csv (snd rw)) = 3%nat).
Proof.
  split; [lia|].
  apply (@run_cma_es_complete_file_iff Z Z toy_optimizer toy_simulator
           "h" 2 2 [] O).
  lia.
Defined.

Lemma run_cma_es_no_index_error_witness :
  @population_positive Z Z toy_optimizer /\
  @tell_reorders Z Z toy_optimizer /\
  fst (run_cma_es "h" 2 2 (@initial_world Z Z toy_simulator [] O))
  <> Raise IndexError.
Proof.
  assert (Hp : @population_positive Z Z toy_optimizer)
    by (intros o; simpl; lia).
  split; [exact Hp|]. split; [exact toy_tell_reorders|].
  apply (@run_cma_es_no_index_error Z Z toy_optimizer toy_simulator
           "h" 2 2 [] O Hp toy_tell_reorders).
Defined.
